(** * NegativeBinomial (torch/distributions/negative_binomial.py)

    A shallow embedding of the [NegativeBinomial] distribution class and of
    the part of the numerics substrate it consumes: shapes, broadcasting,
    element-wise tensor arithmetic, the constraint checks, the Gamma and
    Poisson samplers and the gradient-mode scope.

    Tensor elements are real numbers ([R]); rounding, infinities and NaN of
    the machine floats are outside the model.  A Python number passed where
    a tensor is expected is the 0-dimensional tensor holding it. *)

From Stdlib Require Import String Ascii.
From Stdlib Require Import List Arith ZArith Lia Bool Reals Lra.
Import ListNotations.

Set Implicit Arguments.

(** ** Exceptions and the error monad *)

(** The three kinds of exception of the component.  In Python the first and
    the last are [ValueError]s with different messages and the second is the
    [RuntimeError] of a failed broadcast. *)
Inductive error : Type :=
| ConfigurationError (msg : string)
| BroadcastError
| ValidationError (what : string).

Inductive result (A : Type) : Type :=
| Ok (a : A)
| Err (e : error).

Arguments Ok {A} a.
Arguments Err {A} e.

Definition bind {A B : Type} (m : result A) (k : A -> result B) : result B :=
  match m with
  | Ok a => k a
  | Err e => Err e
  end.

Declare Scope err_scope.
Delimit Scope err_scope with err.
Notation "'let*' x ':=' m 'in' k" := (bind m (fun x => k))
  (at level 10, x name, m at level 100, k at level 200) : err_scope.
Notation "'let*' ' p ':=' m 'in' k" := (bind m (fun p => k))
  (at level 10, p pattern, m at level 100, k at level 200) : err_scope.

Definition is_validation_error {A : Type} (r : result A) : bool :=
  match r with
  | Err (ValidationError _) => true
  | _ => false
  end.

Definition is_configuration_error {A : Type} (r : result A) : bool :=
  match r with
  | Err (ConfigurationError _) => true
  | _ => false
  end.

Definition is_ok {A : Type} (r : result A) : bool :=
  match r with
  | Ok _ => true
  | Err _ => false
  end.

(** ** Shapes and broadcasting *)

(** The substrate's shapes and its broadcasting rules are modelled from
    the spec: trailing dimensions align, a dimension of size 1 expands, and
    shapes that do not fit do not broadcast. *)

Module Shape.

Definition shape := list nat.

(** Modelled from the spec: the number of elements of an array of the
    given shape. *)
Definition numel (s : shape) : nat := fold_right Nat.mul 1 s.

(** Modelled from the spec: right alignment, a shape of lower rank gets
    leading dimensions 1. *)
Definition pad (n : nat) (s : shape) : shape :=
  repeat 1 (n - length s) ++ s.

(** Modelled from the spec: one dimension of the broadcast of two shapes.
    Equal sizes stay, a size 1 takes the other size, anything else does not
    broadcast. *)
Definition dim_join (a b : nat) : option nat :=
  if a =? b then Some a
  else if a =? 1 then Some b
  else if b =? 1 then Some a
  else None.

Fixpoint zip_dims (s t : shape) : option shape :=
  match s, t with
  | [], [] => Some []
  | a :: s', b :: t' =>
      match dim_join a b, zip_dims s' t' with
      | Some d, Some r => Some (d :: r)
      | _, _ => None
      end
  | _, _ => None
  end.

(** Modelled from the spec: the common shape of two shapes, trailing
    dimensions aligned. *)
Definition infer_size (a b : shape) : option shape :=
  let n := Nat.max (length a) (length b) in
  zip_dims (pad n a) (pad n b).

(** Modelled from the spec: [dims_expand s t] holds when [s] and [t] have
    the same rank and every dimension of [s] is the one of [t] or is 1. *)
Fixpoint dims_expand (s t : shape) : bool :=
  match s, t with
  | [], [] => true
  | a :: s', b :: t' => ((a =? b) || (a =? 1)) && dims_expand s' t'
  | _, _ => false
  end.

(** Modelled from the spec: [expandable s t] holds when a tensor of shape
    [s] can be expanded to shape [t]. *)
Definition expandable (s t : shape) : bool :=
  (length s <=? length t) && dims_expand (pad (length t) s) t.

End Shape.

Import Shape.

Local Open Scope err_scope.

(** ** Tensors: sizes and a contiguous row-major storage *)

(** Modelled from the spec: the array type of the substrate, the sizes of
    its dimensions and its elements in row-major order. *)

Record tensor (A : Type) : Type := mkTensor {
  sizes : shape;
  storage : list A
}.

Arguments mkTensor {A} sizes storage.

Definition wf {A : Type} (t : tensor A) : Prop :=
  length (storage t) = numel (sizes t).

Definition scalar_tensor {A : Type} (x : A) : tensor A := mkTensor [] [x].

Section Elementwise.

Context {A B C : Type}.

Fixpoint zip_with (f : A -> B -> C) (l1 : list A) (l2 : list B) : list C :=
  match l1, l2 with
  | x :: l1', y :: l2' => f x y :: zip_with f l1' l2'
  | _, _ => []
  end.

End Elementwise.

Section Expand.

Context {A : Type}.

(** The [i]-th block of [k] consecutive elements of a storage. *)
Definition chunk (k i : nat) (d : list A) : list A :=
  firstn k (skipn (i * k) d).

(** Modelled from the spec: the storage of the expansion of a tensor of
    shape [s] (already padded to the rank of [t]) to shape [t].  A
    dimension of equal size is traversed, a dimension of size 1 is
    repeated. *)
Fixpoint expand_data (s t : shape) (d : list A) : list A :=
  match s, t with
  | a :: s', b :: t' =>
      if a =? b
      then flat_map (fun i => expand_data s' t' (chunk (numel s') i d))
                    (seq 0 a)
      else concat (repeat (expand_data s' t' d) b)
  | _, _ => d
  end.

(** Modelled from the spec: [t.expand(s)] without the check, the view of
    [t] at shape [s]. *)
Definition expand_to (s : shape) (t : tensor A) : tensor A :=
  mkTensor s (expand_data (pad (length s) (sizes t)) s (storage t)).

(** Modelled from the spec: [t.expand(s)]; it raises when the shape of [t]
    does not expand to [s]. *)
Definition expand (t : tensor A) (s : shape) : result (tensor A) :=
  if expandable (sizes t) s then Ok (expand_to s t) else Err BroadcastError.

End Expand.

(** Modelled from the spec: the element-wise operations of the substrate;
    the binary ones broadcast their operands to the common shape and raise
    when there is none. *)
Definition tmap {A B : Type} (f : A -> B) (t : tensor A) : tensor B :=
  mkTensor (sizes t) (map f (storage t)).

Definition binop {A B C : Type} (f : A -> B -> C)
    (x : tensor A) (y : tensor B) : result (tensor C) :=
  match infer_size (sizes x) (sizes y) with
  | Some s =>
      Ok (mkTensor s (zip_with f (storage (expand_to s x))
                               (storage (expand_to s y))))
  | None => Err BroadcastError
  end.

(** Modelled from the spec: [t.all()] of a boolean tensor. *)
Definition all (t : tensor bool) : bool := forallb (fun b => b) (storage t).

(** Modelled from the spec: [broadcast_all] of [torch.distributions.utils],
    for two values: both are expanded to their common shape, incompatible
    shapes fail with [BroadcastError]. *)
Definition broadcast_all {A : Type} (x y : tensor A)
    : result (tensor A * tensor A) :=
  match infer_size (sizes x) (sizes y) with
  | Some s => Ok (expand_to s x, expand_to s y)
  | None => Err BroadcastError
  end.

(** Modelled from the spec: [x.type_as(y)], the cast of [x] to the element
    type of [y].  The model has one element type, the reals, so the cast
    does not round here; no property relies on [total_count] being stored
    without rounding. *)
Definition type_as {A : Type} (x y : tensor A) : tensor A := x.

(** ** Scalar functions of the substrate *)

Open Scope R_scope.

(** Modelled from the spec: [torch.sigmoid], as a function of a real
    number. *)
Definition sigmoid (x : R) : R := / (1 + exp (- x)).

(** Modelled from the spec: [F.logsigmoid], the logarithm of the sigmoid. *)
Definition logsigmoid (x : R) : R := ln (sigmoid x).

(** Modelled from the spec: [x.clamp(min=lo, max=hi)]. *)
Definition clamp (lo hi x : R) : R := Rmin (Rmax x lo) hi.

(** The comparisons of real numbers, as booleans. *)
Definition Rleb (x y : R) : bool := if Rle_dec x y then true else false.

Definition Rltb (x y : R) : bool := if Rlt_dec x y then true else false.

Definition Reqb (x y : R) : bool := if Req_dec_T x y then true else false.

(** ** Constraints ([torch.distributions.constraints]) *)

Module constraints.

(** Modelled from the spec: [greater_than_eq(lb).check(x)] is [lb <= x]. *)
Definition greater_than_eq (lb x : R) : bool := Rleb lb x.

(** Modelled from the spec: [half_open_interval(lb, ub).check(x)] is
    [(lb <= x) & (x < ub)]. *)
Definition half_open_interval (lb ub x : R) : bool :=
  Rleb lb x && Rltb x ub.

(** Modelled from the spec: [nonnegative_integer.check(x)] is
    [(x % 1 == 0) & (x >= 0)]. *)
Definition nonnegative_integer (x : R) : bool :=
  Reqb (frac_part x) 0 && Rleb 0 x.

(** Modelled from the spec: [c.check(t)], element by element. *)
Definition check (c : R -> bool) (t : tensor R) : tensor bool := tmap c t.

End constraints.

(** ** The distribution *)

Section NegativeBinomial.

(** [torch.lgamma], element-wise; the log-gamma function is not defined in
    the real-number library, the model is parametric in it. *)
Variable lgamma : R -> R.

(** The machine epsilon of the element type, [torch.finfo(dtype).eps]. *)
Variable eps : R.

(** Modelled from the spec: the clamp of a probability to
    [[eps, 1 - eps]] that keeps the log-odds finite. *)
Definition clamp_probs (p : R) : R := clamp eps (1 - eps) p.

(** Modelled from the spec: [probs_to_logits(probs, is_binary=True)] of
    [torch.distributions.utils], the log-odds [log(p) - log1p(-p)] of the
    clamped probability. *)
Definition probs_to_logits (probs : tensor R) : tensor R :=
  tmap (fun p => ln (clamp_probs p) - ln (1 + - clamp_probs p)) probs.

(** Modelled from the spec: [logits_to_probs(logits, is_binary=True)] of
    [torch.distributions.utils], the sigmoid. *)
Definition logits_to_probs (logits : tensor R) : tensor R :=
  tmap sigmoid logits.

(** The parameter stored by [__init__]: [self.probs] or [self.logits];
    the other one is a lazy property computed from it. *)
Inductive parametrization : Type :=
| Probs (p : tensor R)
| Logits (l : tensor R).

Record NegativeBinomial : Type := mkNegativeBinomial {
  total_count : tensor R;
  param : parametrization;
  _batch_shape : shape;
  _validate_args : bool
}.

Definition arg_constraints_total_count : R -> bool :=
  constraints.greater_than_eq 0.

Definition arg_constraints_probs : R -> bool :=
  constraints.half_open_interval 0 1.

Definition support : R -> bool := constraints.nonnegative_integer.

(** Modelled from the spec: the class default of [validate_args] in
    [Distribution]; validation is opt-in. *)
Definition default_validate_args : bool := false.

(** Modelled from the spec: [Distribution.__init__], which records the
    batch shape and the validation flag and, when validation is enabled,
    checks [total_count] and, if [probs] was given, [probs] against
    [arg_constraints]. *)
Definition Distribution_init (tc : tensor R) (pm : parametrization)
    (batch_shape : shape) (validate_args : option bool)
    : result NegativeBinomial :=
  let va := match validate_args with
            | Some b => b
            | None => default_validate_args
            end in
  let self := mkNegativeBinomial tc pm batch_shape va in
  if va then
    if negb (all (constraints.check arg_constraints_total_count tc))
    then Err (ValidationError "total_count")
    else
      match pm with
      | Probs p =>
          if negb (all (constraints.check arg_constraints_probs p))
          then Err (ValidationError "probs")
          else Ok self
      | Logits _ => Ok self
      end
  else Ok self.

Definition is_None {X : Type} (o : option X) : bool :=
  match o with
  | None => true
  | Some _ => false
  end.

Definition _param_of (pm : parametrization) : tensor R :=
  match pm with
  | Probs p => p
  | Logits l => l
  end.

Definition __init__ (total_count : tensor R)
    (probs logits : option (tensor R)) (validate_args : option bool)
    : result NegativeBinomial :=
  if Bool.eqb (is_None probs) (is_None logits)
  then Err (ConfigurationError
              "Either `probs` or `logits` must be specified, but not both.")
  else
    let* pm :=
      match probs, logits with
      | Some p, _ =>
          let* '(tc, p') := broadcast_all total_count p in
          Ok (type_as tc p', Probs p')
      | None, Some l =>
          let* '(tc, l') := broadcast_all total_count l in
          Ok (type_as tc l', Logits l')
      | None, None =>
          (* not reached: the two are not both [None] here *)
          Err BroadcastError
      end in
    let batch_shape := sizes (_param_of (snd pm)) in
    Distribution_init (fst pm) (snd pm) batch_shape validate_args.

Definition _param (self : NegativeBinomial) : tensor R :=
  _param_of (param self).

Definition batch_shape (self : NegativeBinomial) : shape :=
  _batch_shape self.

(** The lazy properties; they are pure functions of the stored parameter,
    so the cache of [lazy_property] is not observable. *)
Definition logits (self : NegativeBinomial) : tensor R :=
  match param self with
  | Logits l => l
  | Probs p => probs_to_logits p
  end.

Definition probs (self : NegativeBinomial) : tensor R :=
  match param self with
  | Probs p => p
  | Logits l => logits_to_probs l
  end.

Definition mean (self : NegativeBinomial) : result (tensor R) :=
  binop Rmult (total_count self) (tmap exp (logits self)).

Definition variance (self : NegativeBinomial) : result (tensor R) :=
  let* m := mean self in
  binop Rdiv m (tmap sigmoid (tmap Ropp (logits self))).

Definition param_shape (self : NegativeBinomial) : shape :=
  sizes (_param self).

(** Modelled from the spec: [Distribution._validate_sample], the check
    that every element of [value] is in the support. *)
Definition _validate_sample (self : NegativeBinomial) (value : tensor R)
    : result unit :=
  if negb (all (constraints.check support value))
  then Err (ValidationError "value")
  else Ok tt.

Definition log_prob (self : NegativeBinomial) (value : tensor R)
    : result (tensor R) :=
  let* _ := if _validate_args self then _validate_sample self value
            else Ok tt in
  let* a := binop Rmult (total_count self)
                  (tmap logsigmoid (tmap Ropp (logits self))) in
  let* b := binop Rmult value (tmap logsigmoid (logits self)) in
  let* log_unnormalized_prob := binop Rplus a b in
  let* tv := binop Rplus (total_count self) value in
  let* c := binop Rplus (tmap Ropp (tmap lgamma tv))
                  (tmap lgamma (tmap (Rplus 1) value)) in
  let* log_normalization := binop Rplus c (tmap lgamma (total_count self)) in
  binop Rminus log_unnormalized_prob log_normalization.

End NegativeBinomial.

(** ** Sampling: generator state, gradient mode and autograd history *)

Section Sampling.

Variable eps : R.

(** The random generator of the substrate and its two element draws: a
    standard Gamma variate of a given concentration and a Poisson variate
    of a given rate, both returned as elements of a real-valued tensor.  A
    draw consumes generator state and may raise. *)
Variable generator : Type.
Variable standard_gamma_draw : R -> generator -> result R * generator.
Variable poisson_draw : R -> generator -> result R * generator.

(** The state sampling runs in: the thread's gradient mode
    ([torch.is_grad_enabled()]), the generator, and the operations that
    autograd has recorded (most recent first). *)
Record world : Type := mkWorld {
  grad_enabled : bool;
  gen : generator;
  tape : list string
}.

Definition set_grad_enabled (b : bool) (w : world) : world :=
  mkWorld b (gen w) (tape w).

(** Computations that read and write the world and may raise. *)
Definition M (X : Type) : Type := world -> result X * world.

Definition ret {X : Type} (x : X) : M X := fun w => (Ok x, w).

Definition raise {X : Type} (e : error) : M X := fun w => (Err e, w).

Definition bindM {X Y : Type} (m : M X) (k : X -> M Y) : M Y :=
  fun w =>
    match m w with
    | (Ok x, w') => k x w'
    | (Err e, w') => (Err e, w')
    end.

Definition lift {X : Type} (r : result X) : M X := fun w => (r, w).

(** A differentiable operation enters the autograd history when gradient
    tracking is enabled. *)
Definition record (op : string) : M unit :=
  fun w =>
    (Ok tt,
     if grad_enabled w
     then mkWorld (grad_enabled w) (gen w) (op :: tape w)
     else w).

(** One draw per element, in storage order. *)
Fixpoint draw_all {X Y : Type} (draw : X -> generator -> result Y * generator)
    (l : list X) (g : generator) : result (list Y) * generator :=
  match l with
  | [] => (Ok [], g)
  | x :: l' =>
      match draw x g with
      | (Ok y, g') =>
          match draw_all draw l' g' with
          | (Ok ys, g'') => (Ok (y :: ys), g'')
          | (Err e, g'') => (Err e, g'')
          end
      | (Err e, g') => (Err e, g')
      end
  end.

Definition with_generator {X : Type}
    (f : generator -> result X * generator) : M X :=
  fun w =>
    let (r, g') := f (gen w) in
    (r, mkWorld (grad_enabled w) g' (tape w)).

Notation "x <- m ;; k" := (bindM m (fun x => k))
  (at level 61, m at next level, right associativity).

(** Modelled from the spec: [torch.no_grad()] used as a context manager.
    Entering saves the gradient mode and disables tracking; leaving
    restores the saved mode, whether the body returned or raised. *)
Definition no_grad {X : Type} (body : M X) : M X :=
  fun w =>
    let prev := grad_enabled w in
    let (r, w') := body (set_grad_enabled false w) in
    (r, set_grad_enabled prev w').

(** Modelled from the spec: [torch.distributions.Gamma], the distribution
    object with its two parameters and its batch shape. *)
Record Gamma : Type := mkGamma {
  concentration : tensor R;
  rate : tensor R;
  gamma_batch_shape : shape
}.

(** Modelled from the spec: the constructor of [Gamma]; the two parameters
    are broadcast against each other. *)
Definition Gamma_init (concentration rate : tensor R) : result Gamma :=
  let* '(c, r) := broadcast_all concentration rate in
  Ok (mkGamma c r (sizes c)).

(** Modelled from the spec: the Gamma sampler of the substrate, one
    standard Gamma variate per entry of the concentration. *)
Definition _standard_gamma (c : tensor R) : M (tensor R) :=
  _ <- record "_standard_gamma" ;;
  xs <- with_generator (draw_all standard_gamma_draw (storage c)) ;;
  ret (mkTensor (sizes c) xs).

(** Modelled from the spec: [Gamma.sample(sample_shape)], which draws at
    the shape [sample_shape + batch_shape] a standard Gamma variate per
    element of the expanded concentration and divides it by the expanded
    rate. *)
Definition Gamma_sample (self : Gamma) (sample_shape : shape)
    : M (tensor R) :=
  let shape := (sample_shape ++ gamma_batch_shape self)%list in
  c <- lift (expand (concentration self) shape) ;;
  r <- lift (expand (rate self) shape) ;;
  x <- _standard_gamma c ;;
  _ <- record "div" ;;
  lift (binop Rdiv x r).

(** Modelled from the spec: [torch.poisson(rate)], one Poisson draw per
    entry of [rate], returned as a real-valued tensor of the same shape. *)
Definition poisson (rate : tensor R) : M (tensor R) :=
  _ <- record "poisson" ;;
  ys <- with_generator (draw_all poisson_draw (storage rate)) ;;
  ret (mkTensor (sizes rate) ys).

(** The lazy property [_gamma], at its first access: [-logits] and its
    exponential are computed, then the Gamma object is built. *)
Definition _gamma (self : NegativeBinomial) : M Gamma :=
  _ <- record "neg" ;;
  _ <- record "exp" ;;
  lift (Gamma_init (total_count self)
                   (tmap exp (tmap Ropp (logits eps self)))).

(** The body of the [with] statement of [sample]. *)
Definition sample_body (self : NegativeBinomial) (sample_shape : shape)
    : M (tensor R) :=
  g <- _gamma self ;;
  rate <- Gamma_sample g sample_shape ;;
  poisson rate.

Definition sample (self : NegativeBinomial) (sample_shape : shape)
    : M (tensor R) :=
  no_grad (sample_body self sample_shape).

End Sampling.

(** ** Vocabulary of the properties *)

(** The storage of a tensor seen at a shape it expands to. *)
Definition at_shape {A : Type} (u : shape) (t : tensor A) : list A :=
  storage (expand_to u t).

(** [fits u t]: [t] is well formed and expands to shape [u]. *)
Definition fits {A : Type} (u : shape) (t : tensor A) : Prop :=
  wf t /\ expandable (sizes t) u = true.

Definition wf_opt {A : Type} (o : option (tensor A)) : Prop :=
  match o with
  | Some t => wf t
  | None => True
  end.

(** What [__init__] establishes: the two stored tensors are well formed and
    have the recorded batch shape. *)
Definition valid_instance (self : NegativeBinomial) : Prop :=
  wf (total_count self) /\ wf (_param self) /\
  sizes (total_count self) = _batch_shape self /\
  sizes (_param self) = _batch_shape self.

Definition built_from_logits (self : NegativeBinomial) : Prop :=
  match param self with
  | Logits _ => True
  | Probs _ => False
  end.

(** [given op ol x]: exactly one of [probs], [logits] is given, and it is
    [x]. *)
Definition given (op ol : option (tensor R)) (x : tensor R) : Prop :=
  (op = Some x /\ ol = None) \/ (op = None /\ ol = Some x).

(** The validation flag a construction runs with. *)
Definition validation_enabled (validate_args : option bool) : bool :=
  match validate_args with
  | Some b => b
  | None => default_validate_args
  end.

(** The constraints a construction declares, on the stored tensors. *)
Definition constraints_hold (tc : tensor R) (pm : parametrization) : Prop :=
  Forall (fun t => 0 <= t) (storage tc) /\
  match pm with
  | Probs p => Forall (fun x => 0 <= x < 1) (storage p)
  | Logits _ => True
  end.

(** The parameter a construction stores: the given one, broadcast. *)
Definition stored_param (op : option (tensor R)) (s : shape) (x : tensor R)
    : parametrization :=
  match op with
  | Some _ => Probs (expand_to s x)
  | None => Logits (expand_to s x)
  end.

Fixpoint zip_with3 {A B C D : Type} (f : A -> B -> C -> D)
    (l1 : list A) (l2 : list B) (l3 : list C) : list D :=
  match l1, l2, l3 with
  | x :: l1', y :: l2', z :: l3' => f x y z :: zip_with3 f l1' l2' l3'
  | _, _, _ => []
  end.

(** The common shape of three shapes. *)
Definition infer_size3 (a b c : shape) : option shape :=
  match infer_size a b with
  | Some ab => infer_size ab c
  | None => None
  end.

(** The log-density of one count [x] for one pair of parameters, as the
    spec writes it: [log_unnorm - log_norm]. *)
Definition log_unnorm (t l x : R) : R :=
  t * logsigmoid (- l) + x * logsigmoid l.

Definition log_norm (lgamma : R -> R) (t x : R) : R :=
  - lgamma (t + x) + lgamma (1 + x) + lgamma t.

Definition log_prob_elem (lgamma : R -> R) (t l x : R) : R :=
  log_unnorm t l x - log_norm lgamma t x.

(** [drawn draw l y]: [y] is what [draw] returned for some element of
    [l]. *)
Definition drawn {G X Y : Type} (draw : X -> G -> result Y * G)
    (l : list X) (y : Y) : Prop :=
  exists x g g', In x l /\ draw x g = (Ok y, g').



(** The machine epsilon of single precision, the default element type. *)
Definition float32_eps : R := / 2 ^ 23.

(** [quiet m]: run with tracking disabled, [m] leaves tracking disabled and
    records nothing, whether it returns or raises. *)
Definition quiet {G X : Type} (m : M G X) : Prop :=
  forall w, grad_enabled w = false ->
    grad_enabled (snd (m w)) = false /\ tape (snd (m w)) = tape w.

(** [grows m]: [m] keeps the gradient mode and never shortens the
    history. *)
Definition grows {G X : Type} (m : M G X) : Prop :=
  forall w, (length (tape w) <= length (tape (snd (m w))))%nat /\
            grad_enabled (snd (m w)) = grad_enabled w.


Definition is_broadcast_error {A : Type} (r : result A) : bool :=
  match r with
  | Err BroadcastError => true
  | _ => false
  end.

(** A function with the recurrence of the log-gamma function,
    [f (y + 1) = f y + ln y] for positive [y]: the sum of the logarithms
    of [y - 1], [y - 2], ... down to the fractional part of [y]. *)
Definition lgamma_steps (y : R) : R :=
  fold_right Rplus 0
    (map (fun j => ln (frac_part y + INR j))
         (seq 0 (Z.to_nat (Int_part y)))).

(** * Properties *)

Close Scope R_scope.
Unset Implicit Arguments.

(** ** Lists: element-wise combination and blocks *)

Section ListFacts.

Context {A B C : Type}.

Lemma length_zip_with (f : A -> B -> C) l1 l2 :
  length l1 = length l2 -> length (zip_with f l1 l2) = length l1.
Proof.
  revert l2; induction l1 as [|x l1 IH]; intros [|y l2]; simpl; intros H;
    try discriminate; auto.
Qed.

Lemma zip_with_app (f : A -> B -> C) l1 l1' l2 l2' :
  length l1 = length l2 ->
  zip_with f (l1 ++ l1') (l2 ++ l2') = zip_with f l1 l2 ++ zip_with f l1' l2'.
Proof.
  revert l2; induction l1 as [|x l1 IH]; intros [|y l2]; simpl; intros H;
    try discriminate; auto.
  f_equal; auto.
Qed.

Lemma firstn_zip_with (f : A -> B -> C) n l1 l2 :
  firstn n (zip_with f l1 l2) = zip_with f (firstn n l1) (firstn n l2).
Proof.
  revert l1 l2; induction n as [|n IH]; intros [|x l1] [|y l2]; simpl; auto.
  f_equal; auto.
Qed.

Lemma skipn_zip_with (f : A -> B -> C) n l1 l2 :
  skipn n (zip_with f l1 l2) = zip_with f (skipn n l1) (skipn n l2).
Proof.
  revert l1 l2; induction n as [|n IH]; intros [|x l1] [|y l2]; simpl; auto.
  destruct (skipn n l1); reflexivity.
Qed.

Lemma chunk_zip_with (f : A -> B -> C) k i l1 l2 :
  chunk k i (zip_with f l1 l2) = zip_with f (chunk k i l1) (chunk k i l2).
Proof. unfold chunk. now rewrite skipn_zip_with, firstn_zip_with. Qed.

Lemma zip_with_flat_map {I : Type} (f : A -> B -> C)
    (g1 : I -> list A) (g2 : I -> list B) (l : list I) :
  (forall i, In i l -> length (g1 i) = length (g2 i)) ->
  zip_with f (flat_map g1 l) (flat_map g2 l)
  = flat_map (fun i => zip_with f (g1 i) (g2 i)) l.
Proof.
  induction l as [|i l IH]; simpl; intros H; auto.
  rewrite zip_with_app by (apply H; now left).
  f_equal. apply IH. intros j Hj. apply H. now right.
Qed.

Lemma zip_with_concat_repeat (f : A -> B -> C) l1 l2 n :
  length l1 = length l2 ->
  zip_with f (concat (repeat l1 n)) (concat (repeat l2 n))
  = concat (repeat (zip_with f l1 l2) n).
Proof.
  intros H. induction n as [|n IH]; simpl; auto.
  rewrite zip_with_app by exact H. now f_equal.
Qed.

Lemma zip_with_map_l {A' : Type} (f : A -> B -> C) (h : A' -> A) l1 l2 :
  zip_with f (map h l1) l2 = zip_with (fun x y => f (h x) y) l1 l2.
Proof.
  revert l2; induction l1 as [|x l1 IH]; intros [|y l2]; simpl; auto.
  f_equal; auto.
Qed.

Lemma zip_with_map_r {B' : Type} (f : A -> B -> C) (h : B' -> B) l1 l2 :
  zip_with f l1 (map h l2) = zip_with (fun x y => f x (h y)) l1 l2.
Proof.
  revert l2; induction l1 as [|x l1 IH]; intros [|y l2]; simpl; auto.
  f_equal; auto.
Qed.

Lemma map_zip_with {D : Type} (h : C -> D) (f : A -> B -> C) l1 l2 :
  map h (zip_with f l1 l2) = zip_with (fun x y => h (f x y)) l1 l2.
Proof.
  revert l2; induction l1 as [|x l1 IH]; intros [|y l2]; simpl; auto.
  f_equal; auto.
Qed.

End ListFacts.

Section ChunkFacts.

Context {A : Type}.

Lemma chunk_map {B : Type} (f : A -> B) k i (d : list A) :
  chunk k i (map f d) = map f (chunk k i d).
Proof. unfold chunk. now rewrite skipn_map, firstn_map. Qed.

Lemma length_chunk k i (d : list A) :
  (i + 1) * k <= length d -> length (chunk k i d) = k.
Proof.
  intros H. unfold chunk. rewrite length_firstn, length_skipn. lia.
Qed.

Lemma chunk_0_app k (c rest : list A) :
  length c = k -> chunk k 0 (c ++ rest) = c.
Proof.
  intros H. unfold chunk. simpl.
  rewrite firstn_app, H, Nat.sub_diag. simpl.
  rewrite app_nil_r. apply firstn_all2. lia.
Qed.

Lemma chunk_S_app k i (c rest : list A) :
  length c = k -> chunk k (S i) (c ++ rest) = chunk k i rest.
Proof.
  intros H. unfold chunk. f_equal. simpl.
  rewrite skipn_app.
  rewrite (skipn_all2 c) by lia. simpl. f_equal. lia.
Qed.

(** Traversing the blocks of a concatenation of equal-length blocks. *)
Lemma flat_map_chunks {B : Type} (g : list A -> list B) k (ch : list (list A)) :
  Forall (fun c => length c = k) ch ->
  flat_map (fun i => g (chunk k i (concat ch))) (seq 0 (length ch))
  = flat_map g ch.
Proof.
  induction 1 as [|c ch Hc Hch IH]; simpl; auto.
  rewrite chunk_0_app by exact Hc. f_equal.
  rewrite <- seq_shift, flat_map_concat_map, map_map, <- flat_map_concat_map.
  rewrite <- IH. apply flat_map_ext. intros i.
  now rewrite chunk_S_app.
Qed.

(** A list whose length is [a * k] is a concatenation of [a] blocks of
    length [k]. *)
Lemma split_chunks k a (d : list A) :
  length d = a * k ->
  exists ch, d = concat ch /\ length ch = a /\
             Forall (fun c => length c = k) ch.
Proof.
  revert d; induction a as [|a IH]; intros d H.
  - exists []. destruct d; [auto | discriminate].
  - destruct (IH (skipn k d)) as (ch & E & L & F).
    { rewrite length_skipn. simpl in H. lia. }
    exists (firstn k d :: ch). simpl. repeat split.
    + now rewrite <- E, firstn_skipn.
    + now rewrite L.
    + constructor; auto. rewrite length_firstn. simpl in H. lia.
Qed.

Lemma length_flat_map_const {I : Type} (g : I -> list A) m (l : list I) :
  (forall i, In i l -> length (g i) = m) ->
  length (flat_map g l) = length l * m.
Proof.
  induction l as [|i l IH]; simpl; intros H; auto.
  rewrite length_app, H, IH; auto.
Qed.

Lemma length_concat_repeat (x : list A) n :
  length (concat (repeat x n)) = n * length x.
Proof. induction n as [|n IH]; simpl; auto. now rewrite length_app, IH. Qed.

Lemma flat_map_const_seq (x : list A) s n :
  flat_map (fun _ => x) (seq s n) = concat (repeat x n).
Proof. revert s; induction n as [|n IH]; intros s; simpl; auto. now rewrite IH. Qed.

Lemma chunk_concat_repeat (x : list A) n i :
  i < n -> chunk (length x) i (concat (repeat x n)) = x.
Proof.
  revert i; induction n as [|n IH]; intros i Hi; [lia|].
  simpl. destruct i as [|i].
  - now apply chunk_0_app.
  - rewrite chunk_S_app by reflexivity. apply IH. lia.
Qed.

End ChunkFacts.

(** ** Shapes *)

Lemma numel_app s t : numel (s ++ t) = numel s * numel t.
Proof. induction s as [|a s IH]; simpl; [lia|]. rewrite IH. lia. Qed.

Lemma numel_repeat_1 n : numel (repeat 1 n) = 1.
Proof. induction n as [|n IH]; simpl; lia. Qed.

Lemma numel_pad n s : numel (pad n s) = numel s.
Proof. unfold pad. rewrite numel_app, numel_repeat_1. lia. Qed.

Lemma length_pad n s : length s <= n -> length (pad n s) = n.
Proof. intros H. unfold pad. rewrite length_app, repeat_length. lia. Qed.

Lemma pad_full n s : n <= length s -> pad n s = s.
Proof. intros H. unfold pad. now replace (n - length s) with 0 by lia. Qed.

Lemma pad_split n m s :
  length s <= m -> m <= n -> pad n s = repeat 1 (n - m) ++ pad m s.
Proof.
  intros H1 H2. unfold pad. rewrite app_assoc, <- repeat_app.
  do 2 f_equal. lia.
Qed.

Lemma dims_expand_length s t : dims_expand s t = true -> length s = length t.
Proof.
  revert t; induction s as [|a s IH]; intros [|b t]; simpl; try discriminate; auto.
  intros H. apply andb_prop in H as [_ H]. f_equal; auto.
Qed.

Lemma dims_expand_refl s : dims_expand s s = true.
Proof. induction s as [|a s IH]; simpl; auto. now rewrite Nat.eqb_refl, IH. Qed.

Lemma dims_expand_ones n s t :
  dims_expand s t = true ->
  dims_expand (repeat 1 n ++ s) (repeat 1 n ++ t) = true.
Proof. intros H. induction n as [|n IH]; simpl; auto. Qed.

Lemma dims_expand_ones_any p s t :
  dims_expand s t = true ->
  dims_expand (repeat 1 (length p) ++ s) (p ++ t) = true.
Proof.
  intros H. induction p as [|a p IH]; simpl; auto.
  rewrite IH. now rewrite orb_true_r.
Qed.

Lemma dim_join_comm a b : dim_join a b = dim_join b a.
Proof.
  unfold dim_join. rewrite (Nat.eqb_sym b a).
  destruct (Nat.eqb_spec a b) as [->|Hab]; auto.
  destruct (Nat.eqb_spec a 1) as [->|Ha], (Nat.eqb_spec b 1) as [->|Hb];
    auto; congruence.
Qed.

Lemma zip_dims_comm s t : zip_dims s t = zip_dims t s.
Proof.
  revert t; induction s as [|a s IH]; intros [|b t]; simpl; auto.
  now rewrite dim_join_comm, IH.
Qed.

Lemma zip_dims_expand s t u :
  zip_dims s t = Some u -> dims_expand s u = true /\ dims_expand t u = true.
Proof.
  revert t u; induction s as [|a s IH]; intros [|b t] u; simpl; try discriminate.
  - intros [= <-]. auto.
  - destruct (dim_join a b) as [d|] eqn:Ed; try discriminate.
    destruct (zip_dims s t) as [r|] eqn:Er; try discriminate.
    intros [= <-]. destruct (IH _ _ Er) as [H1 H2]. simpl. rewrite H1, H2.
    unfold dim_join in Ed.
    destruct (Nat.eqb_spec a b) as [->|Hab].
    + injection Ed as <-. now rewrite Nat.eqb_refl.
    + destruct (Nat.eqb_spec a 1) as [->|Ha].
      * injection Ed as <-. rewrite Nat.eqb_refl. simpl. now rewrite orb_true_r.
      * destruct (Nat.eqb_spec b 1) as [->|Hb]; try discriminate.
        injection Ed as <-. rewrite Nat.eqb_refl. simpl.
        now rewrite orb_true_r.
Qed.

Lemma zip_dims_absorb s u : dims_expand s u = true -> zip_dims u s = Some u.
Proof.
  revert u; induction s as [|a s IH]; intros [|b u]; simpl; try discriminate; auto.
  intros H. apply andb_prop in H as [Hd H]. rewrite (IH _ H).
  unfold dim_join.
  destruct (Nat.eqb_spec b a) as [->|Hba]; auto.
  destruct (Nat.eqb_spec a b) as [->|_]; [congruence|]. simpl in Hd.
  apply Nat.eqb_eq in Hd as ->.
  destruct (Nat.eqb_spec b 1) as [->|_]; [congruence|]. reflexivity.
Qed.

Lemma expandable_refl s : expandable s s = true.
Proof.
  unfold expandable. rewrite Nat.leb_refl, pad_full by lia.
  apply dims_expand_refl.
Qed.

Lemma expandable_spec s u :
  expandable s u = true <->
  length s <= length u /\ dims_expand (pad (length u) s) u = true.
Proof.
  unfold expandable. rewrite andb_true_iff, Nat.leb_le. tauto.
Qed.

Lemma expandable_prepend p s : expandable s (p ++ s) = true.
Proof.
  apply expandable_spec. rewrite length_app. split; [lia|].
  unfold pad. replace (length p + length s - length s) with (length p) by lia.
  apply dims_expand_ones_any, dims_expand_refl.
Qed.

Lemma infer_size_comm a b : infer_size a b = infer_size b a.
Proof. unfold infer_size. now rewrite Nat.max_comm, zip_dims_comm. Qed.

Lemma infer_size_expandable a b u :
  infer_size a b = Some u -> expandable a u = true /\ expandable b u = true.
Proof.
  unfold infer_size. intros H.
  destruct (zip_dims_expand _ _ _ H) as [Ha Hb].
  pose proof (dims_expand_length _ _ Ha) as La.
  rewrite length_pad in La by lia.
  split; apply expandable_spec; rewrite <- La; split; auto; lia.
Qed.

Lemma infer_size_absorb s u :
  expandable s u = true -> infer_size u s = Some u.
Proof.
  intros H. apply expandable_spec in H as [L H]. unfold infer_size.
  rewrite Nat.max_l by lia. rewrite (pad_full (length u) u) by lia.
  now apply zip_dims_absorb.
Qed.

Lemma infer_size_refl s : infer_size s s = Some s.
Proof. apply infer_size_absorb, expandable_refl. Qed.

(** ** Expansion of the storage *)

Section ExpandFacts.

Context {A : Type}.

Lemma flat_map_ext_in {I B : Type} (g h : I -> list B) (l : list I) :
  (forall i, In i l -> g i = h i) -> flat_map g l = flat_map h l.
Proof.
  intros H. rewrite !flat_map_concat_map. f_equal. now apply map_ext_in.
Qed.

(** On blocks: a traversed leading dimension expands block by block. *)
Lemma expand_data_blocks a s t (ch : list (list A)) :
  length ch = a -> Forall (fun c => length c = numel s) ch ->
  expand_data (a :: s) (a :: t) (concat ch) = flat_map (expand_data s t) ch.
Proof.
  intros L F. simpl. rewrite Nat.eqb_refl, <- L.
  now apply (flat_map_chunks (expand_data s t)).
Qed.

Lemma expand_data_one s t b (d : list A) :
  b <> 1 ->
  expand_data (1 :: s) (b :: t) d = concat (repeat (expand_data s t d) b).
Proof.
  intros H. simpl. destruct b as [|[|b]]; try reflexivity. congruence.
Qed.

Lemma expand_data_one_one s t (d : list A) :
  length d = numel s ->
  expand_data (1 :: s) (1 :: t) d = expand_data s t d.
Proof.
  intros H. simpl. rewrite app_nil_r. f_equal.
  unfold chunk. simpl. apply firstn_all2. lia.
Qed.

Lemma length_expand_data s t (d : list A) :
  dims_expand s t = true -> length d = numel s ->
  length (expand_data s t d) = numel t.
Proof.
  revert t d; induction s as [|a s IH]; intros [|b t] d; simpl;
    try discriminate; auto.
  intros H L. apply andb_prop in H as [Hd H].
  destruct (Nat.eqb_spec a b) as [->|Hab].
  - rewrite (length_flat_map_const _ (numel t)).
    + now rewrite length_seq.
    + intros i Hi. apply in_seq in Hi. apply IH; auto.
      apply length_chunk. nia.
  - simpl in Hd. apply Nat.eqb_eq in Hd as ->.
    rewrite length_concat_repeat. rewrite IH; auto. lia.
Qed.

Lemma expand_data_id s (d : list A) :
  length d = numel s -> expand_data s s d = d.
Proof.
  revert d; induction s as [|a s IH]; intros d L; auto.
  destruct (split_chunks (numel s) a d L) as (ch & -> & Lc & F).
  rewrite expand_data_blocks by auto.
  rewrite flat_map_concat_map. f_equal.
  rewrite <- (map_id ch) at 2. apply map_ext_in.
  intros c Hc. apply IH. rewrite Forall_forall in F. now apply F.
Qed.

Lemma expand_data_map {B : Type} (f : A -> B) s t (d : list A) :
  expand_data s t (map f d) = map f (expand_data s t d).
Proof.
  revert t d; induction s as [|a s IH]; intros [|b t] d; simpl; auto.
  destruct (a =? b).
  - rewrite !flat_map_concat_map, concat_map, map_map. f_equal.
    apply map_ext. intros i. now rewrite chunk_map, IH.
  - rewrite IH, concat_map. f_equal. now rewrite map_repeat.
Qed.

Lemma expand_data_compose s t u (d : list A) :
  dims_expand s t = true -> dims_expand t u = true ->
  length d = numel s ->
  expand_data t u (expand_data s t d) = expand_data s u d.
Proof.
  revert t u d; induction s as [|a s IH]; intros [|b t] [|c u] d;
    try discriminate; auto.
  intros H1 H2 L.
  simpl in H1, H2.
  apply andb_prop in H1 as [D1 H1]. apply andb_prop in H2 as [D2 H2].
  destruct (Nat.eqb_spec a b) as [->|Hab].
  - destruct (Nat.eqb_spec b c) as [->|Hbc].
    + destruct (split_chunks (numel s) c d L) as (ch & -> & Lc & F).
      rewrite !expand_data_blocks by auto.
      rewrite flat_map_concat_map.
      rewrite expand_data_blocks.
      * rewrite !flat_map_concat_map, map_map. f_equal.
        apply map_ext_in. intros x Hx. apply IH; auto.
        rewrite Forall_forall in F. now apply F.
      * now rewrite length_map.
      * apply Forall_map. eapply Forall_impl; [|exact F].
        intros x Hx. simpl. now apply length_expand_data.
    + simpl in D2. apply Nat.eqb_eq in D2 as ->.
      assert (Ld : length d = numel s) by (simpl in L; lia).
      rewrite expand_data_one_one by exact Ld.
      rewrite !expand_data_one by congruence.
      rewrite IH; auto.
  - simpl in D1. apply Nat.eqb_eq in D1 as ->.
    assert (Ld : length d = numel s) by (simpl in L; lia).
    rewrite (expand_data_one s t b) by congruence.
    destruct (Nat.eqb_spec b c) as [->|Hbc].
    + rewrite (expand_data_one s u c) by congruence.
      simpl. rewrite Nat.eqb_refl.
      rewrite <- (flat_map_const_seq (expand_data s u d) 0 c).
      apply flat_map_ext_in. intros i Hi. apply in_seq in Hi.
      rewrite <- (length_expand_data s t d H1 Ld).
      rewrite chunk_concat_repeat by lia. now apply IH.
    + simpl in D2. apply Nat.eqb_eq in D2. congruence.
Qed.

Lemma expand_data_ones n s t (d : list A) :
  length d = numel s ->
  expand_data (repeat 1 n ++ s) (repeat 1 n ++ t) d = expand_data s t d.
Proof.
  intros L. induction n as [|n IH]; auto.
  simpl repeat. simpl app. rewrite expand_data_one_one; auto.
  rewrite numel_app, numel_repeat_1. lia.
Qed.

End ExpandFacts.

Lemma expand_data_zip_with {A B C : Type} (f : A -> B -> C) s t d1 d2 :
  dims_expand s t = true -> length d1 = numel s -> length d2 = numel s ->
  expand_data s t (zip_with f d1 d2)
  = zip_with f (expand_data s t d1) (expand_data s t d2).
Proof.
  revert t d1 d2; induction s as [|a s IH]; intros [|b t] d1 d2;
    try discriminate; auto.
  intros H L1 L2. simpl in H. apply andb_prop in H as [D H].
  destruct (Nat.eqb_spec a b) as [->|Hab].
  - simpl. rewrite Nat.eqb_refl.
    rewrite zip_with_flat_map.
    + apply flat_map_ext_in. intros i Hi. apply in_seq in Hi.
      rewrite chunk_zip_with. simpl in L1, L2.
      apply IH; auto; apply length_chunk; nia.
    + intros i Hi. apply in_seq in Hi. simpl in L1, L2.
      rewrite !length_expand_data; auto; apply length_chunk; nia.
  - simpl in D. apply Nat.eqb_eq in D as ->.
    simpl in L1, L2.
    rewrite !expand_data_one by congruence.
    rewrite zip_with_concat_repeat.
    + rewrite IH; auto; lia.
    + rewrite !length_expand_data; auto; lia.
Qed.

(** ** Tensors: expansion and element-wise operations *)

Section TensorFacts.

Context {A : Type}.

Lemma wf_expand_to u (t : tensor A) : fits u t -> wf (expand_to u t).
Proof.
  intros [W E]. apply expandable_spec in E as [L E].
  unfold wf, expand_to. simpl.
  apply length_expand_data; auto. now rewrite numel_pad.
Qed.

Lemma length_at_shape u (t : tensor A) :
  fits u t -> length (at_shape u t) = numel u.
Proof. intros H. exact (wf_expand_to u t H). Qed.

Lemma expand_to_self (t : tensor A) : wf t -> expand_to (sizes t) t = t.
Proof.
  intros W. destruct t as [s d]. unfold expand_to. simpl in *.
  rewrite pad_full by lia. f_equal. now apply expand_data_id.
Qed.

Lemma at_shape_self (t : tensor A) : wf t -> at_shape (sizes t) t = storage t.
Proof. intros W. unfold at_shape. now rewrite expand_to_self. Qed.

Lemma fits_self (t : tensor A) : wf t -> fits (sizes t) t.
Proof. intros W. split; auto. apply expandable_refl. Qed.

Lemma at_shape_compose t u (x : tensor A) :
  fits t x -> expandable t u = true ->
  at_shape u (expand_to t x) = at_shape u x.
Proof.
  intros [W E1] E2.
  apply expandable_spec in E1 as [L1 E1].
  apply expandable_spec in E2 as [L2 E2].
  unfold at_shape, expand_to. simpl.
  set (n := length u - length t).
  assert (P1 : pad (length u) t = repeat 1 n ++ t) by reflexivity.
  assert (P2 : pad (length u) (sizes x)
               = repeat 1 n ++ pad (length t) (sizes x))
    by (apply pad_split; lia).
  assert (Ld : length (storage x) = numel (pad (length t) (sizes x)))
    by (now rewrite numel_pad).
  rewrite P2.
  rewrite <- (expand_data_ones n (pad (length t) (sizes x)) t _ Ld).
  apply expand_data_compose.
  - now apply dims_expand_ones.
  - now rewrite <- P1.
  - rewrite numel_app, numel_repeat_1. lia.
Qed.

Lemma fits_expand_to t u (x : tensor A) :
  fits t x -> expandable t u = true -> fits u (expand_to t x).
Proof. intros H E. split; [now apply wf_expand_to | exact E]. Qed.

Lemma at_shape_tmap {B : Type} (f : A -> B) u (x : tensor A) :
  at_shape u (tmap f x) = map f (at_shape u x).
Proof. unfold at_shape, expand_to, tmap. simpl. apply expand_data_map. Qed.

Lemma fits_tmap {B : Type} (f : A -> B) u (x : tensor A) :
  fits u x -> fits u (tmap f x).
Proof.
  intros [W E]. split; auto. unfold wf, tmap in *. simpl.
  now rewrite length_map.
Qed.

Lemma wf_tmap {B : Type} (f : A -> B) (x : tensor A) :
  wf x -> wf (tmap f x).
Proof. unfold wf, tmap. simpl. now rewrite length_map. Qed.

End TensorFacts.

(** A binary operation on operands that broadcast to [t]: the result has
    shape [t] and, seen at any shape [u] that [t] expands to, is the
    element-wise combination of the operands seen at [u]. *)
Lemma binop_at_shape {A B C : Type} (f : A -> B -> C) t u
    (x : tensor A) (y : tensor B) :
  wf x -> wf y -> infer_size (sizes x) (sizes y) = Some t ->
  expandable t u = true ->
  exists r, binop f x y = Ok r /\ sizes r = t /\ fits u r /\
            at_shape u r = zip_with f (at_shape u x) (at_shape u y).
Proof.
  intros Wx Wy Ht Eu.
  destruct (infer_size_expandable _ _ _ Ht) as [Ex Ey].
  assert (Fx : fits t x) by (split; auto).
  assert (Fy : fits t y) by (split; auto).
  unfold binop. rewrite Ht. eexists. split; [reflexivity|].
  split; [reflexivity|].
  assert (Wr : wf (mkTensor t (zip_with f (storage (expand_to t x))
                                         (storage (expand_to t y))))).
  { unfold wf. simpl. rewrite length_zip_with.
    - apply (length_at_shape t x Fx).
    - transitivity (numel t).
      + apply (length_at_shape t x Fx).
      + symmetry. apply (length_at_shape t y Fy). }
  split; [split; auto|].
  rewrite <- (at_shape_compose t u x Fx Eu).
  rewrite <- (at_shape_compose t u y Fy Eu).
  pose proof Eu as Eu'. apply expandable_spec in Eu' as [L E].
  unfold at_shape at 1. unfold expand_to at 1. simpl.
  rewrite expand_data_zip_with; auto.
  - rewrite numel_pad. apply (length_at_shape t x Fx).
  - rewrite numel_pad. apply (length_at_shape t y Fy).
Qed.

Lemma binop_same_shape {A B C : Type} (f : A -> B -> C)
    (x : tensor A) (y : tensor B) :
  wf x -> wf y -> sizes x = sizes y ->
  binop f x y = Ok (mkTensor (sizes x) (zip_with f (storage x) (storage y))).
Proof.
  intros Wx Wy E. unfold binop. rewrite <- E, infer_size_refl.
  rewrite expand_to_self by exact Wx.
  rewrite E at 2. rewrite expand_to_self by exact Wy. reflexivity.
Qed.

Lemma broadcast_all_ok {A : Type} (x y : tensor A) s :
  infer_size (sizes x) (sizes y) = Some s ->
  broadcast_all x y = Ok (expand_to s x, expand_to s y).
Proof. intros H. unfold broadcast_all. now rewrite H. Qed.

Lemma all_tmap_true {A : Type} (c : A -> bool) (t : tensor A) :
  all (tmap c t) = true <-> Forall (fun x => c x = true) (storage t).
Proof.
  unfold all, tmap. simpl. rewrite forallb_forall, Forall_forall. split.
  - intros H x Hx. apply (H (c x)). now apply in_map.
  - intros H b Hb. apply in_map_iff in Hb as (x & <- & Hx). auto.
Qed.

(** ** The broadcasting model on small inputs *)

Example infer_size_3_1 : infer_size [3] [1] = Some [3].
Proof. reflexivity. Qed.

Example infer_size_2_1_3 : infer_size [2; 1] [3] = Some [2; 3].
Proof. reflexivity. Qed.

Example infer_size_2_3 : infer_size [2] [3] = None.
Proof. reflexivity. Qed.

Example expand_rows :
  expand_to [2; 3] (mkTensor [3] [10; 20; 30])
  = mkTensor [2; 3] [10; 20; 30; 10; 20; 30].
Proof. reflexivity. Qed.

Example expand_columns :
  expand_to [2; 3] (mkTensor [2; 1] [10; 20])
  = mkTensor [2; 3] [10; 10; 10; 20; 20; 20].
Proof. reflexivity. Qed.

Example binop_broadcast :
  binop Nat.add (mkTensor [2; 1] [10; 20]) (mkTensor [3] [1; 2; 3])
  = Ok (mkTensor [2; 3] [11; 12; 13; 21; 22; 23]).
Proof. reflexivity. Qed.

(** ** Constructed instances *)

Lemma Distribution_init_ok tc pm bs va self :
  Distribution_init tc pm bs va = Ok self ->
  total_count self = tc /\ param self = pm /\ _batch_shape self = bs /\
  _validate_args self = match va with
                        | Some b => b
                        | None => default_validate_args
                        end.
Proof.
  unfold Distribution_init. intros H.
  repeat match type of H with
         | (if ?c then _ else _) = _ => destruct c
         | match ?p with Probs _ => _ | Logits _ => _ end = _ => destruct p
         end; try discriminate; injection H as <-; auto.
Qed.

(** The arguments of a construction that passed the [probs]/[logits] check
    and the broadcast. *)
Lemma init_ok_inv tc op ol va self :
  __init__ tc op ol va = Ok self ->
  exists x s,
    ((op = Some x /\ ol = None /\ param self = Probs (expand_to s x)) \/
     (op = None /\ ol = Some x /\ param self = Logits (expand_to s x))) /\
    infer_size (sizes tc) (sizes x) = Some s /\
    total_count self = expand_to s tc /\
    _batch_shape self = s /\
    _validate_args self = match va with
                          | Some b => b
                          | None => default_validate_args
                          end.
Proof.
  unfold __init__. intros H.
  destruct op as [p|], ol as [l|]; simpl in H; try discriminate.
  - exists p. unfold broadcast_all in H.
    destruct (infer_size (sizes tc) (sizes p)) as [s|] eqn:Es;
      simpl in H; try discriminate.
    exists s. apply Distribution_init_ok in H as (H1 & H2 & H3 & H4).
    unfold type_as in H1. repeat split; auto.
  - exists l. unfold broadcast_all in H.
    destruct (infer_size (sizes tc) (sizes l)) as [s|] eqn:Es;
      simpl in H; try discriminate.
    exists s. apply Distribution_init_ok in H as (H1 & H2 & H3 & H4).
    unfold type_as in H1. repeat split; auto.
Qed.

Lemma init_valid tc op ol va self :
  wf tc -> wf_opt op -> wf_opt ol ->
  __init__ tc op ol va = Ok self -> valid_instance self.
Proof.
  intros Wt Wp Wl H.
  destruct (init_ok_inv _ _ _ _ _ H) as (x & s & Hx & Hs & Ht & Hb & _).
  destruct (infer_size_expandable _ _ _ Hs) as [E1 E2].
  assert (Wx : wf x).
  { destruct Hx as [(-> & _ & _)|(_ & -> & _)]; assumption. }
  unfold valid_instance, _param. rewrite Ht, Hb.
  destruct Hx as [(_ & _ & ->)|(_ & _ & ->)]; simpl;
    repeat split; auto; apply wf_expand_to; split; auto.
Qed.

Section InstanceFacts.

Variable eps : R.

Lemma sizes_logits self :
  valid_instance self -> sizes (logits eps self) = _batch_shape self.
Proof.
  intros (_ & _ & _ & H). unfold logits, _param in *.
  destruct (param self); auto.
Qed.

Lemma wf_logits self : valid_instance self -> wf (logits eps self).
Proof.
  intros (_ & H & _ & _). unfold logits, _param in *.
  destruct (param self); auto. now apply wf_tmap.
Qed.

End InstanceFacts.

(** ** Log-density *)

Open Scope R_scope.

Section LogProb.

Variable lgamma : R -> R.
Variable eps : R.

Lemma log_prob_pointwise (ts ls xs : list R) :
  zip_with Rminus
    (zip_with Rplus
       (zip_with Rmult ts (map logsigmoid (map Ropp ls)))
       (zip_with Rmult xs (map logsigmoid ls)))
    (zip_with Rplus
       (zip_with Rplus
          (map Ropp (map lgamma (zip_with Rplus ts xs)))
          (map lgamma (map (Rplus 1) xs)))
       (map lgamma ts))
  = zip_with3 (log_prob_elem lgamma) ts ls xs.
Proof.
  revert ls xs; induction ts as [|t ts IH]; intros [|l ls] [|x xs];
    simpl; auto.
  f_equal. apply IH.
Qed.

Lemma validate_sample_ok self value :
  Forall (fun x => support x = true) (storage value) ->
  _validate_sample self value = Ok tt.
Proof.
  intros H. unfold _validate_sample, constraints.check.
  apply all_tmap_true in H. now rewrite H.
Qed.

Ltac step_binop t u :=
  match goal with
  | |- exists _, bind (binop ?f ?x ?y) _ = _ /\ _ =>
      let r := fresh "r" in
      let Er := fresh "Er" in
      let Sr := fresh "Sr" in
      let Fr := fresh "Fr" in
      let Ar := fresh "Ar" in
      destruct (binop_at_shape f t u x y) as (r & Er & Sr & Fr & Ar);
      [ | | | | rewrite Er; simpl bind; destruct Fr as [Fr _] ]
  end.

Lemma log_prob_valid_instance self value s :
  valid_instance self -> wf value ->
  infer_size (batch_shape self) (sizes value) = Some s ->
  Forall (fun x => support x = true) (storage value) ->
  exists r,
    log_prob lgamma eps self value = Ok r /\
    sizes r = s /\ wf r /\
    storage r = zip_with3 (log_prob_elem lgamma)
                  (at_shape s (total_count self))
                  (at_shape s (logits eps self))
                  (at_shape s value).
Proof.
  intros V Wv Hs Hsup.
  pose proof (sizes_logits eps self V) as Sl.
  pose proof (wf_logits eps self V) as Wl.
  destruct V as (Wt & _ & St & _).
  unfold batch_shape in Hs.
  destruct (infer_size_expandable _ _ _ Hs) as [Eb Ev].
  assert (Hbb : infer_size (_batch_shape self) (_batch_shape self)
                = Some (_batch_shape self)) by apply infer_size_refl.
  assert (Hvb : infer_size (sizes value) (_batch_shape self) = Some s)
    by (now rewrite infer_size_comm).
  assert (Hsb : infer_size s (_batch_shape self) = Some s)
    by (now apply infer_size_absorb).
  assert (Hbs : infer_size (_batch_shape self) s = Some s)
    by (now rewrite infer_size_comm).
  assert (Hsv : infer_size s (sizes value) = Some s)
    by (now apply infer_size_absorb).
  assert (Hss : infer_size s s = Some s) by apply infer_size_refl.
  assert (Ess : expandable s s = true) by apply expandable_refl.
  unfold log_prob.
  replace (if _validate_args self then _validate_sample self value
           else Ok tt) with (@Ok unit tt)
    by (destruct (_validate_args self); auto;
        symmetry; now apply validate_sample_ok).
  simpl bind.
  (* total_count * logsigmoid(-logits) *)
  step_binop (_batch_shape self) s;
    [ assumption | now repeat apply wf_tmap
    | simpl; now rewrite St, Sl | assumption | ].
  (* value * logsigmoid(logits) *)
  step_binop s s;
    [ assumption | now apply wf_tmap
    | simpl; now rewrite Sl | assumption | ].
  (* the sum of the two *)
  step_binop s s;
    [ assumption | assumption | now rewrite Sr, Sr0 | assumption | ].
  (* total_count + value *)
  step_binop s s;
    [ assumption | assumption | now rewrite St | assumption | ].
  (* -lgamma(total_count + value) + lgamma(1 + value) *)
  step_binop s s;
    [ now repeat apply wf_tmap | now repeat apply wf_tmap
    | simpl; now rewrite Sr2 | assumption | ].
  (* ... + lgamma(total_count) *)
  step_binop s s;
    [ assumption | now apply wf_tmap
    | simpl; now rewrite Sr3, St | assumption | ].
  (* the difference *)
  destruct (binop_at_shape Rminus s s r1 r4) as (res & Eres & Sr5 & Fr5 & Ar5);
    [ assumption | assumption | now rewrite Sr1, Sr4 | assumption | ].
  exists res. destruct Fr5 as [Wr5 _].
  repeat split; auto.
  rewrite <- (at_shape_self res Wr5), Sr5.
  rewrite Ar5, Ar1, Ar4, Ar, Ar0, Ar3.
  rewrite !at_shape_tmap, Ar2.
  apply log_prob_pointwise.
Qed.

End LogProb.

(** ** Scalars: sigmoid, log-odds and the clamp *)

Lemma sigmoid_pos x : 0 < sigmoid x.
Proof.
  unfold sigmoid. apply Rinv_0_lt_compat.
  pose proof (exp_pos (- x)). lra.
Qed.

Lemma sigmoid_lt_1 x : sigmoid x < 1.
Proof.
  unfold sigmoid. pose proof (exp_pos (- x)) as H.
  rewrite <- Rinv_1 at 2. apply Rinv_lt_contravar; lra.
Qed.

Lemma sigmoid_opp x : sigmoid (- x) = 1 - sigmoid x.
Proof.
  unfold sigmoid. rewrite Ropp_involutive, exp_Ropp.
  pose proof (exp_pos x) as H. field. split; lra.
Qed.

(** The odds of the sigmoid are the exponential. *)
Lemma exp_odds x : exp x = sigmoid x / (1 - sigmoid x).
Proof.
  unfold sigmoid. rewrite exp_Ropp.
  pose proof (exp_pos x) as H. field. split; lra.
Qed.

Lemma exp_logit q :
  0 < q < 1 -> exp (ln q - ln (1 + - q)) = q / (1 - q).
Proof.
  intros [H0 H1]. unfold Rminus at 1. rewrite exp_plus, exp_Ropp.
  rewrite !exp_ln by lra. unfold Rdiv, Rminus. reflexivity.
Qed.

Lemma sigmoid_logit q :
  0 < q < 1 -> sigmoid (ln q - ln (1 + - q)) = q.
Proof.
  intros H. unfold sigmoid. rewrite exp_Ropp, exp_logit by exact H.
  field. lra.
Qed.

Lemma sigmoid_opp_logit q :
  0 < q < 1 -> sigmoid (- (ln q - ln (1 + - q))) = 1 - q.
Proof. intros H. now rewrite sigmoid_opp, sigmoid_logit. Qed.

Lemma clamp_range lo hi x : lo <= hi -> lo <= clamp lo hi x <= hi.
Proof.
  intros H. unfold clamp. split.
  - apply Rmin_glb; auto. apply Rmax_r.
  - apply Rmin_r.
Qed.

Lemma clamp_id lo hi x : lo <= x <= hi -> clamp lo hi x = x.
Proof.
  intros [H1 H2]. unfold clamp.
  rewrite Rmax_left by exact H1. now apply Rmin_left.
Qed.

Lemma clamp_below lo hi x : lo <= hi -> x <= lo -> clamp lo hi x = lo.
Proof.
  intros H1 H2. unfold clamp.
  rewrite Rmax_right by exact H2. now apply Rmin_left.
Qed.

Lemma clamp_above lo hi x : lo <= hi -> hi <= x -> clamp lo hi x = hi.
Proof.
  intros H1 H2. unfold clamp.
  rewrite Rmax_left by lra. now apply Rmin_right.
Qed.

Section ClampProbs.

Variable eps : R.
Hypothesis eps_pos : 0 < eps.
Hypothesis eps_half : eps <= / 2.

Lemma clamp_probs_range p : 0 < clamp_probs eps p < 1.
Proof.
  unfold clamp_probs.
  pose proof (clamp_range eps (1 - eps) p ltac:(lra)). lra.
Qed.

Lemma clamp_probs_id p : eps <= p <= 1 - eps -> clamp_probs eps p = p.
Proof. apply clamp_id. Qed.

Lemma clamp_probs_close p : 0 < p < 1 -> Rabs (clamp_probs eps p - p) < eps.
Proof.
  intros [H0 H1]. unfold clamp_probs.
  destruct (Rle_lt_dec p eps) as [Hl|Hl].
  - rewrite clamp_below by lra. apply Rabs_def1; lra.
  - destruct (Rle_lt_dec (1 - eps) p) as [Hu|Hu].
    + rewrite clamp_above by lra. apply Rabs_def1; lra.
    + rewrite clamp_id by lra. apply Rabs_def1; lra.
Qed.

(** [logits_to_probs] after [probs_to_logits] is the clamp. *)
Lemma sigmoid_probs_to_logits p :
  sigmoid (ln (clamp_probs eps p) - ln (1 + - clamp_probs eps p))
  = clamp_probs eps p.
Proof. apply sigmoid_logit, clamp_probs_range. Qed.

End ClampProbs.

Lemma Forall_firstn {A : Type} (P : A -> Prop) n (l : list A) :
  Forall P l -> Forall P (firstn n l).
Proof.
  intros H; revert n; induction H as [|x l Hx Hl IH]; intros [|n]; simpl;
    auto.
Qed.

Lemma Forall_skipn {A : Type} (P : A -> Prop) n (l : list A) :
  Forall P l -> Forall P (skipn n l).
Proof.
  intros H; revert n; induction H as [|x l Hx Hl IH]; intros [|n]; simpl;
    auto.
Qed.

(** Elements of an expansion are elements of the expanded storage. *)
Lemma Forall_expand_data {A : Type} (P : A -> Prop) s t (d : list A) :
  Forall P d -> Forall P (expand_data s t d).
Proof.
  revert t d; induction s as [|a s IH]; intros [|b t] d H; simpl; auto.
  destruct (a =? b).
  - apply Forall_flat_map, Forall_forall. intros i _. apply IH.
    unfold chunk. now apply Forall_firstn, Forall_skipn.
  - apply Forall_concat, Forall_forall. intros l Hl.
    apply repeat_spec in Hl as ->. now apply IH.
Qed.

Lemma Forall_at_shape {A : Type} (P : A -> Prop) u (t : tensor A) :
  Forall P (storage t) -> Forall P (at_shape u t).
Proof. apply Forall_expand_data. Qed.

(** ** Moments *)

Lemma zip_with_ext_Forall {A B C : Type} (P : B -> Prop) (f g : A -> B -> C)
    l1 l2 :
  Forall P l2 -> (forall x y, P y -> f x y = g x y) ->
  zip_with f l1 l2 = zip_with g l1 l2.
Proof.
  intros H E; revert l1; induction H as [|y l2 Hy Hl IH]; intros [|x l1];
    simpl; auto.
  f_equal; auto.
Qed.

Lemma zip_with_ext {A B C : Type} (f g : A -> B -> C) l1 l2 :
  (forall x y, f x y = g x y) -> zip_with f l1 l2 = zip_with g l1 l2.
Proof.
  intros E. apply (zip_with_ext_Forall (fun _ => True)); auto.
  apply Forall_forall. auto.
Qed.

Section Moments.

Variable eps : R.

Lemma mean_valid_instance self :
  valid_instance self ->
  mean eps self
  = Ok (mkTensor (_batch_shape self)
          (zip_with (fun t l => t * exp l)
             (storage (total_count self)) (storage (logits eps self)))).
Proof.
  intros V. pose proof (sizes_logits eps self V) as Sl.
  pose proof (wf_logits eps self V) as Wl.
  destruct V as (Wt & _ & St & _).
  unfold mean. rewrite binop_same_shape; auto.
  - simpl. now rewrite St, zip_with_map_r.
  - now apply wf_tmap.
  - simpl. now rewrite St, Sl.
Qed.

Lemma variance_valid_instance self :
  valid_instance self ->
  variance eps self
  = Ok (mkTensor (_batch_shape self)
          (zip_with (fun m l => m / sigmoid (- l))
             (zip_with (fun t l => t * exp l)
                (storage (total_count self)) (storage (logits eps self)))
             (storage (logits eps self)))).
Proof.
  intros V. unfold variance. rewrite mean_valid_instance by exact V.
  pose proof (sizes_logits eps self V) as Sl.
  pose proof (wf_logits eps self V) as Wl.
  destruct V as (Wt & _ & St & _).
  simpl bind. rewrite binop_same_shape.
  - simpl. now rewrite !zip_with_map_r.
  - unfold wf. simpl. rewrite length_zip_with.
    + now rewrite Wt, St.
    + now rewrite Wt, Wl, St, Sl.
  - now repeat apply wf_tmap.
  - simpl. now rewrite Sl.
Qed.

(** For one element: the variance is at least the mean. *)
Lemma overdispersion_elem t l :
  0 <= t -> t * exp l <= t * exp l / sigmoid (- l).
Proof.
  intros Ht. pose proof (exp_pos l) as He.
  pose proof (sigmoid_pos (- l)) as H0.
  pose proof (sigmoid_lt_1 (- l)) as H1.
  assert (Hm : 0 <= t * exp l) by (apply Rmult_le_pos; lra).
  assert (Hi : 1 <= / sigmoid (- l)).
  { rewrite <- Rinv_1. apply Rinv_le_contravar; lra. }
  unfold Rdiv. nra.
Qed.

Lemma overdispersion_list ts ls :
  Forall (fun t => 0 <= t) ts ->
  Forall2 Rle
    (zip_with (fun t l => t * exp l) ts ls)
    (zip_with (fun m l => m / sigmoid (- l))
       (zip_with (fun t l => t * exp l) ts ls) ls).
Proof.
  intros H; revert ls; induction H as [|t ts Ht Hts IH]; intros [|l ls];
    simpl; constructor; auto.
  now apply overdispersion_elem.
Qed.

Lemma mean_nonneg_list ts ls :
  Forall (fun t => 0 <= t) ts ->
  Forall (fun m => 0 <= m) (zip_with (fun t l => t * exp l) ts ls).
Proof.
  intros H; revert ls; induction H as [|t ts Ht Hts IH]; intros [|l ls];
    simpl; constructor; auto.
  pose proof (exp_pos l). apply Rmult_le_pos; lra.
Qed.

Lemma sigmoid_opp_range_list (ls : list R) :
  Forall (fun l => 0 < sigmoid (- l) <= 1) ls.
Proof.
  apply Forall_forall. intros l _.
  pose proof (sigmoid_pos (- l)). pose proof (sigmoid_lt_1 (- l)). lra.
Qed.

End Moments.

(** ** Sampling *)

Section SamplingFacts.

Variable eps : R.
Variable generator : Type.
Variable standard_gamma_draw : R -> generator -> result R * generator.
Variable poisson_draw : R -> generator -> result R * generator.

Local Abbreviation world' := (world generator).
Local Abbreviation M' := (M generator).
Local Abbreviation sample' := (sample eps standard_gamma_draw poisson_draw).
Local Abbreviation sample_body' := (sample_body eps standard_gamma_draw poisson_draw).
Local Abbreviation Gamma_sample' := (Gamma_sample standard_gamma_draw).
Local Abbreviation _standard_gamma' := (_standard_gamma standard_gamma_draw).
Local Abbreviation poisson' := (poisson poisson_draw).
Local Abbreviation _gamma' := (_gamma (generator := generator) eps).
Local Abbreviation quiet' := (quiet (G := generator)).
Local Abbreviation grows' := (grows (G := generator)).

(** *** Draws *)

Lemma draw_all_length {X Y : Type}
    (draw : X -> generator -> result Y * generator) l g ys g' :
  draw_all draw l g = (Ok ys, g') -> length ys = length l.
Proof.
  revert g ys g'; induction l as [|x l IH]; intros g ys g'; simpl.
  - now intros [= <- _].
  - destruct (draw x g) as [[y|e] g1]; try discriminate.
    destruct (draw_all draw l g1) as [[ys1|e] g2] eqn:E; try discriminate.
    intros [= <- _]. simpl. f_equal. eapply IH, E.
Qed.

Lemma draw_all_total {X Y : Type}
    (draw : X -> generator -> result Y * generator) :
  (forall x g, is_ok (fst (draw x g)) = true) ->
  forall l g, exists ys g', draw_all draw l g = (Ok ys, g').
Proof.
  intros T l; induction l as [|x l IH]; intros g; simpl.
  - eauto.
  - specialize (T x g). destruct (draw x g) as [[y|e] g1]; try discriminate.
    destruct (IH g1) as (ys & g' & ->). eauto.
Qed.

Lemma draw_all_drawn {X Y : Type}
    (draw : X -> generator -> result Y * generator) l g ys g' :
  draw_all draw l g = (Ok ys, g') -> Forall (drawn draw l) ys.
Proof.
  revert g ys g'; induction l as [|x l IH]; intros g ys g'; simpl.
  - intros [= <- _]. constructor.
  - destruct (draw x g) as [[y|e] g1] eqn:Ed; try discriminate.
    destruct (draw_all draw l g1) as [[ys1|e] g2] eqn:E; try discriminate.
    intros [= <- _]. constructor.
    + exists x, g, g1. split; [now left | exact Ed].
    + eapply Forall_impl; [|eapply IH, E].
      intros z (x' & a & b & Hin & Hd). exists x', a, b.
      split; [now right | exact Hd].
Qed.

(** *** The gradient mode and the autograd history *)

Lemma quiet_ret {X : Type} (x : X) : quiet' (ret x).
Proof. intros w H. auto. Qed.

Lemma quiet_lift {X : Type} (r : result X) : quiet' (lift r).
Proof. intros w H. auto. Qed.

Lemma quiet_record op : quiet' (record op).
Proof. intros w H. unfold record. simpl. rewrite H. auto. Qed.

Lemma quiet_with_generator {X : Type}
    (f : generator -> result X * generator) : quiet' (with_generator f).
Proof.
  intros w H. unfold with_generator. destruct (f (gen w)). simpl. auto.
Qed.

Lemma quiet_bindM {X Y : Type} (m : M' X) (k : X -> M' Y) :
  quiet' m -> (forall x, quiet' (k x)) -> quiet' (bindM m k).
Proof.
  intros Hm Hk w H. unfold bindM. specialize (Hm w H).
  destruct (m w) as [[x|e] w1]; simpl in *; auto.
  destruct Hm as [H1 H2]. destruct (Hk x w1 H1) as [H3 H4].
  split; congruence.
Qed.

Create HintDb quiet'.
Hint Resolve quiet_ret quiet_lift quiet_record quiet_with_generator : quiet'.

Ltac quiet_tac :=
  repeat first [ apply quiet_bindM | solve [auto with quiet'] | intro ].

Lemma quiet__gamma self : quiet' (_gamma' self).
Proof. unfold _gamma. quiet_tac. Qed.

Lemma quiet_Gamma_sample g sample_shape : quiet' (Gamma_sample' g sample_shape).
Proof.
  unfold Gamma_sample, _standard_gamma. quiet_tac.
Qed.

Lemma quiet_poisson lam : quiet' (poisson' lam).
Proof. unfold poisson. quiet_tac. Qed.

Lemma quiet_sample_body self sample_shape :
  quiet' (sample_body' self sample_shape).
Proof.
  unfold sample_body'.
  apply quiet_bindM; [apply quiet__gamma|]. intros g.
  apply quiet_bindM; [apply quiet_Gamma_sample|]. intros lam.
  apply quiet_poisson.
Qed.

(** Leaving the scope restores the mode found on entry, whatever the
    body did to it. *)
Lemma no_grad_restores {X : Type} (body : M' X) w :
  grad_enabled (snd (no_grad body w)) = grad_enabled w.
Proof.
  unfold no_grad. destruct (body (set_grad_enabled false w)). reflexivity.
Qed.

Lemma no_grad_quiet {X : Type} (body : M' X) w :
  quiet' body -> tape (snd (no_grad body w)) = tape w.
Proof.
  intros Q. unfold no_grad.
  destruct (Q (set_grad_enabled false w) eq_refl) as [_ H].
  destruct (body (set_grad_enabled false w)). simpl in *. exact H.
Qed.

Lemma grows_lift {X : Type} (r : result X) : grows' (lift r).
Proof. intros w. auto. Qed.

Lemma grows_ret {X : Type} (x : X) : grows' (ret x).
Proof. intros w. auto. Qed.

Lemma grows_record op : grows' (record op).
Proof.
  intros w. unfold record. simpl.
  destruct (grad_enabled w) eqn:E; simpl; split; auto.
Qed.

Lemma grows_with_generator {X : Type}
    (f : generator -> result X * generator) : grows' (with_generator f).
Proof. intros w. unfold with_generator. destruct (f (gen w)). auto. Qed.

Lemma grows_bindM {X Y : Type} (m : M' X) (k : X -> M' Y) :
  grows' m -> (forall x, grows' (k x)) -> grows' (bindM m k).
Proof.
  intros Hm Hk w. unfold bindM. specialize (Hm w).
  destruct (m w) as [[x|e] w1]; simpl in *; auto.
  destruct Hm as [H1 H2]. destruct (Hk x w1) as [H3 H4].
  split; [lia | congruence].
Qed.

Hint Resolve grows_ret grows_lift grows_record grows_with_generator : quiet'.

Ltac grows_tac :=
  repeat first [ apply grows_bindM | solve [auto with quiet'] | intro ].

Lemma sample_body_records self sample_shape w :
  grad_enabled w = true ->
  (length (tape w) < length (tape (snd (sample_body' self sample_shape w))))%nat.
Proof.
  intros H.
  unfold sample_body', _gamma.
  set (k := fun _ : unit => bindM _ _).
  set (k2 := fun g : Gamma => bindM _ _).
  assert (Hk : forall x, grows' (bindM (k x) k2)).
  { intros x. unfold k, k2, Gamma_sample, poisson,
      _standard_gamma. grows_tac. }
  assert (E : bindM (bindM (record "neg") k) k2 w
              = bindM (k tt) k2
                  (mkWorld (grad_enabled w) (gen w) ("neg"%string :: tape w))).
  { unfold bindM at 1 2. unfold record at 1. simpl. now rewrite H. }
  rewrite E. destruct (Hk tt (mkWorld (grad_enabled w) (gen w)
                               ("neg"%string :: tape w))) as [L _].
  simpl in L. lia.
Qed.

End SamplingFacts.

Section SampleRun.

Variable eps : R.
Variable generator : Type.
Variable standard_gamma_draw : R -> generator -> result R * generator.
Variable poisson_draw : R -> generator -> result R * generator.

Hypothesis standard_gamma_total :
  forall x g, is_ok (fst (standard_gamma_draw x g)) = true.
Hypothesis poisson_total :
  forall x g, is_ok (fst (poisson_draw x g)) = true.

Local Abbreviation world' := (world generator).
Local Abbreviation sample' := (sample eps standard_gamma_draw poisson_draw).
Local Abbreviation sample_body' := (sample_body eps standard_gamma_draw poisson_draw).
Local Abbreviation Gamma_sample' := (Gamma_sample standard_gamma_draw).
Local Abbreviation poisson' := (poisson poisson_draw).
Local Abbreviation _gamma' := (_gamma (generator := generator) eps).

Lemma bindM_ok {X Y : Type} (m : M generator X) (k : X -> M generator Y)
    w x w' :
  m w = (Ok x, w') -> bindM m k w = k x w'.
Proof. intros H. unfold bindM. now rewrite H. Qed.

Lemma with_generator_draw_all {X Y : Type}
    (draw : X -> generator -> result Y * generator) l (w : world') :
  (forall x g, is_ok (fst (draw x g)) = true) ->
  exists ys w',
    with_generator (draw_all draw l) w = (Ok ys, w') /\
    length ys = length l.
Proof.
  intros T. destruct (draw_all_total _ draw T l (gen w)) as (ys & g' & E).
  exists ys, (mkWorld (grad_enabled w) g' (tape w)).
  unfold with_generator. rewrite E. split; auto.
  eapply draw_all_length, E.
Qed.

Lemma with_generator_drawn {X Y : Type}
    (draw : X -> generator -> result Y * generator) l (w : world') ys w' :
  with_generator (draw_all draw l) w = (Ok ys, w') ->
  Forall (drawn draw l) ys.
Proof.
  unfold with_generator.
  destruct (draw_all draw l (gen w)) as [r g'] eqn:E.
  intros [= -> _]. eapply draw_all_drawn, E.
Qed.

Lemma _gamma_run self (w : world') :
  valid_instance self ->
  exists w',
    _gamma' self w
    = (Ok (mkGamma (total_count self)
                   (tmap exp (tmap Ropp (logits eps self)))
                   (_batch_shape self)), w').
Proof.
  intros V. pose proof (sizes_logits eps self V) as Sl.
  pose proof (wf_logits eps self V) as Wl.
  destruct V as (Wt & _ & St & _).
  unfold _gamma, Gamma_init.
  rewrite (broadcast_all_ok _ _ (_batch_shape self)).
  - assert (E1 : expand_to (_batch_shape self) (total_count self)
                 = total_count self)
      by (rewrite <- St; now apply expand_to_self).
    assert (E2 : expand_to (_batch_shape self)
                   (tmap exp (tmap Ropp (logits eps self)))
                 = tmap exp (tmap Ropp (logits eps self))).
    { rewrite <- Sl. apply (expand_to_self (tmap exp (tmap Ropp _))).
      now repeat apply wf_tmap. }
    rewrite E1, E2. simpl bind. rewrite St. eexists. reflexivity.
  - simpl. rewrite St, Sl. apply infer_size_refl.
Qed.

Lemma Gamma_sample_run (g : Gamma) sample_shape (w : world') :
  wf (concentration g) -> wf (rate g) ->
  sizes (concentration g) = gamma_batch_shape g ->
  sizes (rate g) = gamma_batch_shape g ->
  exists r w',
    Gamma_sample' g sample_shape w = (Ok r, w') /\
    sizes r = (sample_shape ++ gamma_batch_shape g)%list /\ wf r.
Proof.
  intros Wc Wr Sc Sr. unfold Gamma_sample.
  set (sh := (sample_shape ++ gamma_batch_shape g)%list).
  assert (Ec : expandable (sizes (concentration g)) sh = true)
    by (rewrite Sc; apply expandable_prepend).
  assert (Er : expandable (sizes (rate g)) sh = true)
    by (rewrite Sr; apply expandable_prepend).
  unfold expand. rewrite Ec, Er.
  unfold lift at 1 2. unfold bindM at 1 2.
  unfold _standard_gamma.
  destruct (with_generator_draw_all standard_gamma_draw
              (storage (expand_to sh (concentration g)))
              (snd (record "_standard_gamma" w)) standard_gamma_total)
    as (xs & w1 & E1 & L1).
  assert (Wx : wf (mkTensor sh xs)).
  { unfold wf. simpl. rewrite L1.
    apply (wf_expand_to sh (concentration g)). split; auto. }
  assert (Wer : wf (expand_to sh (rate g)))
    by (apply wf_expand_to; split; auto).
  exists (mkTensor sh (zip_with Rdiv xs (storage (expand_to sh (rate g))))).
  eexists. split; [|split].
  - unfold bindM, record, ret, lift in *. simpl in *. rewrite E1.
    simpl. rewrite (binop_same_shape Rdiv (mkTensor sh xs)
                      (expand_to sh (rate g))); auto.
  - reflexivity.
  - unfold wf. simpl. rewrite length_zip_with.
    + exact Wx.
    + rewrite Wx. symmetry. exact Wer.
Qed.

Lemma poisson_run lam (w : world') :
  exists ns w',
    poisson' lam w = (Ok (mkTensor (sizes lam) ns), w') /\
    length ns = length (storage lam) /\
    Forall (drawn poisson_draw (storage lam)) ns.
Proof.
  unfold poisson.
  destruct (with_generator_draw_all poisson_draw (storage lam)
              (snd (record "poisson" w)) poisson_total)
    as (ns & w1 & E1 & L1).
  pose proof (with_generator_drawn _ _ _ _ _ E1) as D1.
  exists ns, w1. split; [|split]; auto.
  unfold bindM, record, ret in *. simpl in *. now rewrite E1.
Qed.

(** The body of [sample'] on a constructed instance: the Gamma object has
    the parameters [(total_count, exp(-logits))], the rate is drawn from it
    at the shape [sample_shape + batch_shape], and the result is the
    Poisson draw for that rate. *)
Lemma sample_body_run self sample_shape (w : world') :
  valid_instance self ->
  exists g lam ns w1 w2 w3,
    _gamma' self w = (Ok g, w1) /\
    concentration g = total_count self /\
    rate g = tmap exp (tmap Ropp (logits eps self)) /\
    Gamma_sample' g sample_shape w1 = (Ok lam, w2) /\
    sizes lam = (sample_shape ++ _batch_shape self)%list /\
    wf lam /\
    poisson' lam w2 = (Ok (mkTensor (sizes lam) ns), w3) /\
    length ns = length (storage lam) /\
    Forall (drawn poisson_draw (storage lam)) ns /\
    sample_body' self sample_shape w
    = (Ok (mkTensor (sizes lam) ns), w3).
Proof.
  intros V. destruct (_gamma_run self w V) as (w1 & E1).
  pose proof (sizes_logits eps self V) as Sl.
  pose proof (wf_logits eps self V) as Wl.
  destruct V as (Wt & _ & St & _).
  set (g := mkGamma _ _ _) in E1.
  destruct (Gamma_sample_run g sample_shape w1) as (lam & w2 & E2 & S2 & W2);
    simpl; auto.
  { now repeat apply wf_tmap. }
  destruct (poisson_run lam w2) as (ns & w3 & E3 & L3 & D3).
  exists g, lam, ns, w1, w2, w3. repeat split; auto.
  unfold sample_body'.
  rewrite (bindM_ok _ _ _ _ _ E1), (bindM_ok _ _ _ _ _ E2). exact E3.
Qed.

(** [sample'] on a constructed instance. *)
Lemma sample_run self sample_shape (w : world') :
  valid_instance self ->
  exists g lam t w1 w2 w3,
    _gamma' self (set_grad_enabled false w) = (Ok g, w1) /\
    concentration g = total_count self /\
    rate g = tmap exp (tmap Ropp (logits eps self)) /\
    Gamma_sample' g sample_shape w1 = (Ok lam, w2) /\
    sizes lam = (sample_shape ++ _batch_shape self)%list /\
    poisson' lam w2 = (Ok t, w3) /\
    sample' self sample_shape w
    = (Ok t, set_grad_enabled (grad_enabled w) w3) /\
    sizes t = (sample_shape ++ _batch_shape self)%list /\
    wf t /\
    Forall (drawn poisson_draw (storage lam)) (storage t).
Proof.
  intros V.
  destruct (sample_body_run self sample_shape (set_grad_enabled false w) V)
    as (g & lam & ns & w1 & w2 & w3 & E1 & Ec & Er & E2 & S2 & W2 & E3
        & L3 & D3 & Eb).
  exists g, lam, (mkTensor (sizes lam) ns), w1, w2, w3.
  repeat split; auto.
  - unfold sample, no_grad. now rewrite Eb.
  - unfold wf. simpl. now rewrite L3.
Qed.

End SampleRun.

(** ** Constraints and validation *)

Lemma Rleb_true x y : Rleb x y = true <-> x <= y.
Proof. unfold Rleb. destruct (Rle_dec x y); split; auto; discriminate. Qed.

Lemma Rltb_true x y : Rltb x y = true <-> x < y.
Proof. unfold Rltb. destruct (Rlt_dec x y); split; auto; discriminate. Qed.

Lemma Reqb_true x y : Reqb x y = true <-> x = y.
Proof. unfold Reqb. destruct (Req_dec_T x y); split; auto; discriminate. Qed.

Lemma arg_constraints_total_count_true t :
  arg_constraints_total_count t = true <-> 0 <= t.
Proof. apply Rleb_true. Qed.

Lemma arg_constraints_probs_true p :
  arg_constraints_probs p = true <-> 0 <= p < 1.
Proof.
  unfold arg_constraints_probs, constraints.half_open_interval.
  now rewrite andb_true_iff, Rleb_true, Rltb_true.
Qed.

Lemma frac_part_INR n : frac_part (INR n) = 0.
Proof.
  unfold frac_part. rewrite Int_part_INR, <- INR_IZR_INZ. lra.
Qed.

(** The support is the set of the natural numbers. *)
Lemma support_true x : support x = true <-> exists n : nat, x = INR n.
Proof.
  unfold support, constraints.nonnegative_integer.
  rewrite andb_true_iff, Reqb_true, Rleb_true. split.
  - intros [Hf H0]. destruct (fp_nat x Hf) as [c ->].
    exists (Z.to_nat c). rewrite INR_IZR_INZ. f_equal.
    rewrite Z2Nat.id; auto. now apply le_IZR.
  - intros [n ->]. split; [apply frac_part_INR | apply pos_INR].
Qed.

Lemma all_check_false (c : R -> bool) (P : R -> Prop) (t : tensor R) :
  (forall x, c x = true <-> P x) ->
  negb (all (constraints.check c t)) = true <-> ~ Forall P (storage t).
Proof.
  intros H. unfold constraints.check. rewrite negb_true_iff.
  rewrite <- not_true_iff_false, all_tmap_true.
  assert (E : Forall (fun x => c x = true) (storage t) <-> Forall P (storage t)).
  { rewrite !Forall_forall. split; intros F x Hx; apply H; auto. }
  now rewrite E.
Qed.

Lemma Distribution_init_cases tc pm bs va :
  (validation_enabled va = true /\ ~ constraints_hold tc pm /\
   is_validation_error (Distribution_init tc pm bs va) = true) \/
  ((validation_enabled va = false \/ constraints_hold tc pm) /\
   Distribution_init tc pm bs va
   = Ok (mkNegativeBinomial tc pm bs (validation_enabled va))).
Proof.
  unfold Distribution_init, constraints_hold.
  fold (validation_enabled va).
  destruct (validation_enabled va); [|right; auto].
  destruct (negb (all (constraints.check arg_constraints_total_count tc)))
    eqn:Et.
  - left. apply (all_check_false _ (fun t => 0 <= t)) in Et;
      [|exact arg_constraints_total_count_true].
    repeat split; auto. tauto.
  - assert (Ht : Forall (fun t => 0 <= t) (storage tc)).
    { apply not_true_iff_false in Et.
      rewrite (all_check_false _ (fun t => 0 <= t)) in Et
        by exact arg_constraints_total_count_true.
      destruct (Forall_dec (fun t => 0 <= t)
                  (fun t => Rle_dec 0 t) (storage tc)); tauto. }
    destruct pm as [p|l]; [|right; auto].
    destruct (negb (all (constraints.check arg_constraints_probs p))) eqn:Ep.
    + left. apply (all_check_false _ (fun x => 0 <= x < 1)) in Ep;
        [|exact arg_constraints_probs_true].
      repeat split; auto. tauto.
    + right. split; auto. right. split; auto.
      apply not_true_iff_false in Ep.
      rewrite (all_check_false _ (fun x => 0 <= x < 1)) in Ep
        by exact arg_constraints_probs_true.
      assert (D : forall x, {0 <= x < 1} + {~ 0 <= x < 1}).
      { intros x. destruct (Rle_dec 0 x), (Rlt_dec x 1); auto; right; lra. }
      destruct (Forall_dec _ D (storage p)); tauto.
Qed.

(** A construction that passes the [probs]/[logits] check and the broadcast
    is decided by [Distribution.__init__] on the broadcast tensors. *)
Lemma init_given tc op ol va x s :
  given op ol x -> infer_size (sizes tc) (sizes x) = Some s ->
  exists pm,
    (pm = match op with
          | Some _ => Probs (expand_to s x)
          | None => Logits (expand_to s x)
          end) /\
    __init__ tc op ol va = Distribution_init (expand_to s tc) pm s va.
Proof.
  intros [[-> ->]|[-> ->]] Hs; eexists; (split; [reflexivity|]);
    unfold __init__, broadcast_all; simpl; rewrite Hs; reflexivity.
Qed.

Lemma binop_not_validation_error {A B C : Type} (f : A -> B -> C) x y :
  is_validation_error (binop f x y) = false.
Proof. unfold binop. destruct (infer_size (sizes x) (sizes y)); auto. Qed.

Lemma bind_not_validation_error {A B : Type} (m : result A)
    (k : A -> result B) :
  is_validation_error m = false ->
  (forall a, is_validation_error (k a) = false) ->
  is_validation_error (bind m k) = false.
Proof. intros Hm Hk. destruct m as [a|e]; simpl; auto. Qed.

Lemma log_prob_validation_error lgamma eps self value :
  is_validation_error (log_prob lgamma eps self value) = true <->
  _validate_args self = true /\
  ~ Forall (fun x => exists n : nat, x = INR n) (storage value).
Proof.
  assert (Rest : forall k : unit -> result (tensor R),
            (forall u, is_validation_error (k u) = false) ->
            is_validation_error (bind (Ok tt) k) = false)
    by (intros k Hk; apply Hk).
  unfold log_prob.
  set (rest := fun _ : unit => _).
  assert (Hrest : forall u, is_validation_error (rest u) = false).
  { intros u. unfold rest.
    repeat (apply bind_not_validation_error;
            [apply binop_not_validation_error | intro]).
    apply binop_not_validation_error. }
  destruct (_validate_args self).
  - unfold _validate_sample.
    destruct (negb (all (constraints.check support value))) eqn:E.
    + simpl. apply (all_check_false _ _ _ support_true) in E. tauto.
    + simpl. rewrite Hrest.
      apply not_true_iff_false in E.
      rewrite (all_check_false _ _ _ support_true) in E.
      split; [discriminate|]. intros [_ H]. tauto.
  - simpl. rewrite Hrest. split; [discriminate|]. intros [H _]. discriminate.
Qed.

(** * The properties of the specification *)

(** ** Log-density *)

(** C1.  For every constructed instance and every value in the support
    that broadcasts against [batch_shape], [log_prob(value)] returns
    [log_unnorm - log_norm] element by element, with
    [log_unnorm = total_count * log_sigmoid(-logits) + value * log_sigmoid(logits)]
    and
    [log_norm = -lgamma(total_count + value) + lgamma(1 + value) + lgamma(total_count)],
    at the common shape of [total_count], [logits] and [value]. *)
Theorem log_prob_formula (lgamma : R -> R) (eps : R) tc op ol va self value s :
  wf tc -> wf_opt op -> wf_opt ol -> wf value ->
  __init__ tc op ol va = Ok self ->
  infer_size (batch_shape self) (sizes value) = Some s ->
  Forall (fun x => support x = true) (storage value) ->
  exists r,
    log_prob lgamma eps self value = Ok r /\
    infer_size3 (sizes (total_count self)) (sizes (logits eps self))
                (sizes value) = Some (sizes r) /\
    storage r
    = zip_with3 (fun t l x => log_unnorm t l x - log_norm lgamma t x)
        (at_shape (sizes r) (total_count self))
        (at_shape (sizes r) (logits eps self))
        (at_shape (sizes r) value).
Proof.
  intros Wt Wp Wl Wv Hinit Hs Hsup.
  pose proof (init_valid _ _ _ _ _ Wt Wp Wl Hinit) as V.
  destruct (log_prob_valid_instance lgamma eps self value s V Wv Hs Hsup)
    as (r & Er & Sr & Wr & Dr).
  exists r. rewrite Sr. repeat split; auto.
  unfold infer_size3. rewrite (sizes_logits eps self V).
  destruct V as (_ & _ & -> & _). now rewrite infer_size_refl.
Qed.

Lemma log_prob_formula_witness :
  exists r,
    log_prob (fun _ => 0) float32_eps
      (mkNegativeBinomial (mkTensor [2%nat] [1; 2])
         (Probs (mkTensor [2%nat] [/ 2; / 2])) [2%nat] false)
      (mkTensor [] [3]) = Ok r /\
    sizes r = [2%nat].
Proof.
  destruct (log_prob_formula (fun _ => 0) float32_eps
              (mkTensor [2%nat] [1; 2]) (Some (scalar_tensor (/ 2))) None None
              (mkNegativeBinomial (mkTensor [2%nat] [1; 2])
                 (Probs (mkTensor [2%nat] [/ 2; / 2])) [2%nat] false)
              (mkTensor [] [3]) [2%nat])
    as (r & Er & Sr & _).
  - reflexivity.
  - reflexivity.
  - exact I.
  - reflexivity.
  - reflexivity.
  - reflexivity.
  - constructor; [|constructor]. apply support_true. exists 3%nat.
    simpl. lra.
  - exists r. split; [exact Er|]. simpl in Sr. now injection Sr as <-.
Defined.

(** ** Construction *)

Lemma Distribution_init_not_configuration_error tc pm bs va :
  is_configuration_error (Distribution_init tc pm bs va) = false.
Proof.
  destruct (Distribution_init_cases tc pm bs va) as [(_ & _ & E)|(_ & E)].
  - destruct (Distribution_init tc pm bs va) as [?|[]]; auto; discriminate.
  - now rewrite E.
Qed.

Lemma init_one_given_not_configuration_error tc op ol va x :
  given op ol x -> is_configuration_error (__init__ tc op ol va) = false.
Proof.
  intros [[-> ->]|[-> ->]]; unfold __init__, broadcast_all; simpl;
    destruct (infer_size (sizes tc) (sizes x)); simpl; auto;
    apply Distribution_init_not_configuration_error.
Qed.

(** C4.  Construction raises [ConfigurationError] exactly when both of
    [probs], [logits] are given or neither is; when exactly one is given no
    such error is raised. *)
Theorem init_configuration_error tc op ol va :
  is_configuration_error (__init__ tc op ol va) = true <->
  (op <> None /\ ol <> None) \/ (op = None /\ ol = None).
Proof.
  split.
  - destruct op as [p|], ol as [l|]; intros H.
    + left. split; discriminate.
    + rewrite (init_one_given_not_configuration_error tc _ _ va p) in H
        by (left; auto).
      discriminate.
    + rewrite (init_one_given_not_configuration_error tc _ _ va l) in H
        by (right; auto).
      discriminate.
    + now right.
  - intros [[Hp Hl]|[-> ->]].
    + destruct op, ol; try congruence. reflexivity.
    + reflexivity.
Qed.

(** C9.  For every successfully constructed instance, [param_shape] is
    [batch_shape]. *)
Theorem param_shape_batch_shape tc op ol va self :
  __init__ tc op ol va = Ok self ->
  param_shape self = batch_shape self.
Proof.
  intros H.
  destruct (init_ok_inv _ _ _ _ _ H) as (x & s & Hx & _ & _ & Hb & _).
  unfold param_shape, batch_shape, _param. rewrite Hb.
  destruct Hx as [(_ & _ & ->)|(_ & _ & ->)]; reflexivity.
Qed.

Lemma param_shape_batch_shape_witness :
  param_shape (mkNegativeBinomial (mkTensor [2; 3]%nat [1; 1; 1; 2; 2; 2])
                 (Logits (mkTensor [2; 3]%nat [0; 1; 2; 0; 1; 2]))
                 [2; 3]%nat false)
  = [2; 3]%nat.
Proof.
  apply (param_shape_batch_shape
           (mkTensor [2; 1]%nat [1; 2]) None
           (Some (mkTensor [3%nat] [0; 1; 2])) None).
  reflexivity.
Defined.

(** ** Moments *)

(** C10.  For every constructed instance whose [total_count] is
    non-negative, the mean is non-negative, [sigmoid(-logits)] lies in
    (0, 1], and the variance [mean / sigmoid(-logits)] is at least the mean,
    element by element. *)
Theorem variance_ge_mean (eps : R) tc op ol va self :
  wf tc -> wf_opt op -> wf_opt ol ->
  __init__ tc op ol va = Ok self ->
  Forall (fun t => 0 <= t) (storage (total_count self)) ->
  exists m v,
    mean eps self = Ok m /\ variance eps self = Ok v /\
    sizes m = batch_shape self /\ sizes v = batch_shape self /\
    Forall (fun x => 0 <= x) (storage m) /\
    Forall (fun l => 0 < sigmoid (- l) <= 1) (storage (logits eps self)) /\
    storage v = zip_with (fun x l => x / sigmoid (- l))
                  (storage m) (storage (logits eps self)) /\
    Forall2 Rle (storage m) (storage v).
Proof.
  intros Wt Wp Wl Hinit Hnn.
  pose proof (init_valid _ _ _ _ _ Wt Wp Wl Hinit) as V.
  eexists. eexists.
  split; [apply (mean_valid_instance eps self V)|].
  split; [apply (variance_valid_instance eps self V)|].
  simpl. repeat split; auto.
  - now apply mean_nonneg_list.
  - apply sigmoid_opp_range_list.
  - now apply overdispersion_list.
Qed.

Lemma variance_ge_mean_witness :
  exists m v,
    mean float32_eps
      (mkNegativeBinomial (mkTensor [] [10]) (Probs (mkTensor [] [/ 10]))
         [] false) = Ok m /\
    variance float32_eps
      (mkNegativeBinomial (mkTensor [] [10]) (Probs (mkTensor [] [/ 10]))
         [] false) = Ok v /\
    Forall2 Rle (storage m) (storage v).
Proof.
  destruct (variance_ge_mean float32_eps
              (scalar_tensor 10) (Some (scalar_tensor (/ 10))) None None
              (mkNegativeBinomial (mkTensor [] [10])
                 (Probs (mkTensor [] [/ 10])) [] false))
    as (m & v & Em & Ev & _ & _ & _ & _ & _ & H).
  - reflexivity.
  - reflexivity.
  - exact I.
  - reflexivity.
  - simpl. constructor; [lra | constructor].
  - exists m, v. auto.
Defined.

Lemma moments_probs_list eps ts ps :
  0 < eps -> eps <= / 2 ->
  Forall (fun p => eps <= p <= 1 - eps) ps ->
  zip_with (fun t l => t * exp l) ts
    (map (fun p => ln (clamp_probs eps p) - ln (1 + - clamp_probs eps p)) ps)
  = zip_with (fun t p => t * p / (1 - p)) ts ps /\
  forall ms,
    zip_with (fun m l => m / sigmoid (- l)) ms
      (map (fun p => ln (clamp_probs eps p) - ln (1 + - clamp_probs eps p)) ps)
    = zip_with (fun m p => m / (1 - p)) ms ps.
Proof.
  intros H0 H1 F. split; [|intros ms]; rewrite zip_with_map_r;
    apply (zip_with_ext_Forall (fun p => eps <= p <= 1 - eps)); auto;
    intros x p Hp; rewrite (clamp_probs_id eps p Hp).
  - rewrite exp_logit by lra. unfold Rdiv. ring.
  - rewrite sigmoid_opp_logit by lra. reflexivity.
Qed.

Lemma moments_logits_list ts ls :
  zip_with (fun t l => t * exp l) ts ls
  = zip_with (fun t p => t * p / (1 - p)) ts (map sigmoid ls) /\
  forall ms,
    zip_with (fun m l => m / sigmoid (- l)) ms ls
    = zip_with (fun m p => m / (1 - p)) ms (map sigmoid ls).
Proof.
  split; [|intros ms]; rewrite zip_with_map_r; apply zip_with_ext;
    intros x l.
  - rewrite (exp_odds l). unfold Rdiv. ring.
  - now rewrite sigmoid_opp.
Qed.

(** C3 (as amended).  For every constructed instance, [mean] is
    [total_count * exp(logits)] and [variance] is [mean / sigmoid(-logits)],
    element by element; in real arithmetic they are
    [total_count * probs / (1 - probs)] and [mean / (1 - probs)] whenever
    every element of [probs] lies in [[eps, 1 - eps]], the range in which
    the clamp of the log-odds transform changes nothing and the sigmoid
    stays away from 0 and 1. *)
Theorem moments_formulas (eps : R) tc op ol va self :
  0 < eps -> eps <= / 2 ->
  wf tc -> wf_opt op -> wf_opt ol ->
  __init__ tc op ol va = Ok self ->
  exists m v,
    mean eps self = Ok m /\ variance eps self = Ok v /\
    sizes m = batch_shape self /\ sizes v = batch_shape self /\
    storage m = zip_with (fun t l => t * exp l)
                  (storage (total_count self)) (storage (logits eps self)) /\
    storage v = zip_with (fun x l => x / sigmoid (- l))
                  (storage m) (storage (logits eps self)) /\
    (Forall (fun p => eps <= p <= 1 - eps) (storage (probs self)) ->
     storage m = zip_with (fun t p => t * p / (1 - p))
                   (storage (total_count self)) (storage (probs self)) /\
     storage v = zip_with (fun x p => x / (1 - p))
                   (storage m) (storage (probs self))).
Proof.
  intros H0 H1 Wt Wp Wl Hinit.
  pose proof (init_valid _ _ _ _ _ Wt Wp Wl Hinit) as V.
  eexists. eexists.
  split; [apply (mean_valid_instance eps self V)|].
  split; [apply (variance_valid_instance eps self V)|].
  simpl. repeat split; auto;
    unfold built_from_logits, logits, probs, probs_to_logits, logits_to_probs
      in *;
    destruct (param self) as [p|l]; simpl in *.
  - apply (moments_probs_list eps (storage (total_count self)) _ H0 H1 H).
  - apply (moments_logits_list (storage (total_count self))).
  - apply (moments_probs_list eps (storage (total_count self)) _ H0 H1 H).
  - apply (moments_logits_list (storage (total_count self))).
Qed.

Lemma float32_eps_pos : 0 < float32_eps.
Proof. unfold float32_eps. apply Rinv_0_lt_compat, pow_lt. lra. Qed.

Lemma float32_eps_small : float32_eps <= / 4.
Proof.
  unfold float32_eps. apply Rinv_le_contravar; [lra|].
  change 23%nat with (2 + 21)%nat. rewrite pow_add.
  assert (1 <= 2 ^ 21) by (apply pow_R1_Rle; lra). simpl (2 ^ 2). nra.
Qed.

Lemma float32_eps_half : float32_eps <= / 2.
Proof. pose proof float32_eps_small. lra. Qed.

Lemma moments_formulas_witness :
  exists m v,
    mean float32_eps
      (mkNegativeBinomial (mkTensor [] [1]) (Probs (mkTensor [] [/ 2]))
         [] false) = Ok m /\
    variance float32_eps
      (mkNegativeBinomial (mkTensor [] [1]) (Probs (mkTensor [] [/ 2]))
         [] false) = Ok v /\
    storage m = [1] /\ storage v = [2].
Proof.
  destruct (moments_formulas float32_eps
              (scalar_tensor 1) (Some (scalar_tensor (/ 2))) None None
              (mkNegativeBinomial (mkTensor [] [1])
                 (Probs (mkTensor [] [/ 2])) [] false)
              float32_eps_pos float32_eps_half)
    as (m & v & Em & Ev & _ & _ & _ & _ & H).
  - reflexivity.
  - reflexivity.
  - exact I.
  - reflexivity.
  - exists m, v. split; [exact Em|]. split; [exact Ev|].
    destruct H as [Hm Hv].
    + simpl. constructor; [|constructor].
      pose proof float32_eps_small. lra.
    + rewrite Hv, Hm. simpl. split; f_equal; field.
Defined.

(** C3 as stated fails on an instance built from [probs = 0], a valid
    probability: the log-odds are taken of the clamped probability, so the
    mean of [total_count = 1] is positive, whereas
    [total_count * probs / (1 - probs)] is 0. *)
Lemma moments_formulas_counterexample :
  exists self m,
    __init__ (scalar_tensor 1) (Some (scalar_tensor 0)) None (Some true)
    = Ok self /\
    mean float32_eps self = Ok m /\
    storage m <> zip_with (fun t p => t * p / (1 - p))
                   (storage (total_count self)) (storage (probs self)).
Proof.
  destruct (init_given (scalar_tensor 1) (Some (scalar_tensor 0)) None
              (Some true) (scalar_tensor 0) [])
    as (pm & -> & E); [left; auto | reflexivity |].
  destruct (Distribution_init_cases
              (expand_to [] (scalar_tensor 1))
              (Probs (expand_to [] (scalar_tensor 0))) [] (Some true))
    as [(_ & N & _)|(_ & E')].
  - exfalso. apply N. split; simpl; (constructor; [lra | constructor]).
  - rewrite E' in E. eexists. eexists. split; [exact E|].
    split; [reflexivity|]. simpl. intros [= H].
    pose proof (exp_pos (ln (clamp_probs float32_eps 0)
                         - ln (1 + - clamp_probs float32_eps 0))).
    lra.
Qed.

(** ** The transforms between [probs] and [logits] *)

Lemma Forall2_map_close (f : R -> R) (e : R) (l : list R) :
  Forall (fun x => Rabs (f x - x) < e) l ->
  Forall2 (fun q x => Rabs (q - x) < e) (map f l) l.
Proof. induction 1; simpl; constructor; auto. Qed.

(** C7.  For probabilities in (0, 1): build an instance from [probs], read
    its [logits], build a fresh instance from these and read its [probs].
    The result is the original [probs] (at the batch shape of the fresh
    instance) clamped to [[eps, 1 - eps]]: every element is within [eps] of
    the original, and equal to it when the original lies in
    [[eps, 1 - eps]]. *)
Theorem probs_logits_roundtrip (eps : R) tc p va self tc' va' self' :
  0 < eps -> eps <= / 2 ->
  wf tc -> wf p -> wf tc' ->
  Forall (fun x => 0 < x < 1) (storage p) ->
  __init__ tc (Some p) None va = Ok self ->
  __init__ tc' None (Some (logits eps self)) va' = Ok self' ->
  storage (probs self')
  = map (clamp_probs eps) (at_shape (batch_shape self') p) /\
  Forall2 (fun q x => Rabs (q - x) < eps)
    (storage (probs self')) (at_shape (batch_shape self') p) /\
  (Forall (fun x => eps <= x <= 1 - eps) (storage p) ->
   storage (probs self') = at_shape (batch_shape self') p).
Proof.
  intros H0 H1 Wt Wp Wt' Hp Hinit Hinit'.
  destruct (init_ok_inv _ _ _ _ _ Hinit) as (x & s & Hx & Hs & _ & Hb & _).
  destruct Hx as [(Ex & _ & Pm)|(Ex & _)]; [|discriminate].
  injection Ex as <-.
  destruct (init_ok_inv _ _ _ _ _ Hinit')
    as (x' & s' & Hx' & Hs' & _ & Hb' & _).
  destruct Hx' as [(Ex' & _)|(_ & Ex' & Pm')]; [discriminate|].
  injection Ex' as <-.
  destruct (infer_size_expandable _ _ _ Hs) as [_ Eps].
  destruct (infer_size_expandable _ _ _ Hs') as [_ Els].
  assert (Fp : fits s p) by (split; auto).
  assert (Sl : sizes (logits eps self) = s)
    by (unfold logits; rewrite Pm; reflexivity).
  rewrite Sl in Els.
  assert (E : storage (probs self')
              = map (clamp_probs eps) (at_shape s' p)).
  { unfold probs. rewrite Pm'. unfold logits_to_probs, logits. rewrite Pm.
    unfold probs_to_logits.
    change (storage (tmap sigmoid (expand_to s' ?t)))
      with (map sigmoid (at_shape s' t)).
    rewrite at_shape_tmap, (at_shape_compose s s' p Fp Els), map_map.
    apply map_ext. intros a. now apply sigmoid_probs_to_logits. }
  unfold batch_shape. rewrite Hb', E. split; [reflexivity|]. split.
  - apply Forall2_map_close.
    apply Forall_at_shape with (u := s') in Hp.
    eapply Forall_impl; [|exact Hp]. intros a Ha.
    now apply clamp_probs_close.
  - intros Hr. apply Forall_at_shape with (u := s') in Hr.
    rewrite <- (map_id (at_shape s' p)) at 2.
    apply map_ext_Forall. eapply Forall_impl; [|exact Hr].
    intros a Ha. now apply clamp_probs_id.
Qed.

Lemma probs_logits_roundtrip_witness :
  storage (probs
    (mkNegativeBinomial (mkTensor [] [1])
       (Logits (logits float32_eps
                  (mkNegativeBinomial (mkTensor [] [1])
                     (Probs (mkTensor [] [/ 2])) [] false)))
       [] false))
  = [/ 2].
Proof.
  pose proof float32_eps_small as Hs.
  apply (probs_logits_roundtrip float32_eps
           (scalar_tensor 1) (scalar_tensor (/ 2)) None
           (mkNegativeBinomial (mkTensor [] [1])
              (Probs (mkTensor [] [/ 2])) [] false)
           (scalar_tensor 1) None
           (mkNegativeBinomial (mkTensor [] [1])
              (Logits (logits float32_eps
                         (mkNegativeBinomial (mkTensor [] [1])
                            (Probs (mkTensor [] [/ 2])) [] false)))
              [] false)
           float32_eps_pos float32_eps_half).
  - reflexivity.
  - reflexivity.
  - reflexivity.
  - simpl. constructor; [lra | constructor].
  - reflexivity.
  - reflexivity.
  - simpl. constructor; [lra | constructor].
Defined.

(** ** Validation *)

Lemma init_validation_error_enabled tc op ol va :
  is_validation_error (__init__ tc op ol va) = true ->
  validation_enabled va = true.
Proof.
  intros H. destruct (validation_enabled va) eqn:Ev; auto.
  assert (D : forall a pm bs,
             is_validation_error (Distribution_init a pm bs va) = false).
  { intros a pm bs.
    destruct (Distribution_init_cases a pm bs va) as [(E & _)|(_ & E)].
    - congruence.
    - now rewrite E. }
  unfold __init__, broadcast_all in H.
  destruct op as [p|], ol as [l|]; simpl in H; try discriminate.
  - destruct (infer_size (sizes tc) (sizes p)); simpl in H;
      [rewrite D in H|]; discriminate.
  - destruct (infer_size (sizes tc) (sizes l)); simpl in H;
      [rewrite D in H|]; discriminate.
Qed.

Lemma init_disabled_ok tc op ol va x s :
  given op ol x -> infer_size (sizes tc) (sizes x) = Some s ->
  validation_enabled va = false ->
  exists self, __init__ tc op ol va = Ok self.
Proof.
  intros Hg Hs Ev.
  destruct (init_given tc op ol va x s Hg Hs) as (pm & _ & E). rewrite E.
  destruct (Distribution_init_cases (expand_to s tc) pm s va)
    as [(Ev' & _)|(_ & Eok)].
  - congruence.
  - rewrite Eok. eauto.
Qed.

(** C5 (as amended).  A construction that gives exactly one of [probs],
    [logits] and whose shapes broadcast raises [ValidationError] exactly
    when validation is enabled and the broadcast [total_count] is somewhere
    negative or the given [probs] is somewhere outside [[0, 1)]; with
    validation disabled it returns an instance.  [log_prob] raises [ValidationError] exactly when
    the instance validates and some element of the value is not a
    non-negative integer.  With validation disabled neither raises a
    [ValidationError], whatever the arguments: [total_count = -1] constructs
    with validation disabled and is rejected with validation enabled. *)
Theorem validation_error (lgamma : R -> R) (eps : R) tc op ol va x s value :
  given op ol x ->
  infer_size (sizes tc) (sizes x) = Some s ->
  (is_validation_error (__init__ tc op ol va) = true <->
   validation_enabled va = true /\
   ~ constraints_hold (expand_to s tc) (stored_param op s x)) /\
  (validation_enabled va = false ->
   exists self, __init__ tc op ol va = Ok self) /\
  (forall self,
     is_validation_error (log_prob lgamma eps self value) = true <->
     _validate_args self = true /\
     ~ Forall (fun v => exists n : nat, v = INR n) (storage value)) /\
  (forall tc' op' ol' va',
     validation_enabled va' = false ->
     is_validation_error (__init__ tc' op' ol' va') = false) /\
  (exists self,
     __init__ (scalar_tensor (-1)) (Some (scalar_tensor (/ 2))) None
       (Some false) = Ok self) /\
  is_validation_error
    (__init__ (scalar_tensor (-1)) (Some (scalar_tensor (/ 2))) None
       (Some true)) = true.
Proof.
  intros Hg Hs.
  destruct (init_given tc op ol va x s Hg Hs) as (pm & Epm & E).
  fold (stored_param op s x) in Epm. subst pm.
  split; [|split; [|split; [|split; [|split]]]].
  - rewrite E.
    destruct (Distribution_init_cases (expand_to s tc) (stored_param op s x)
                s va) as [(Ev & N & V)|(C & Eok)].
    + tauto.
    + rewrite Eok. simpl. split; [discriminate|].
      intros [Ev N]. destruct C as [C|C]; [congruence | tauto].
  - now apply (init_disabled_ok tc op ol va x s).
  - intros self. apply log_prob_validation_error.
  - intros tc' op' ol' va' Hv.
    destruct (is_validation_error (__init__ tc' op' ol' va')) eqn:Ei; auto.
    apply init_validation_error_enabled in Ei. congruence.
  - eexists. reflexivity.
  - destruct (init_given (scalar_tensor (-1)) (Some (scalar_tensor (/ 2)))
                None (Some true) (scalar_tensor (/ 2)) [])
      as (pm & -> & E'); [left; auto | reflexivity |].
    rewrite E'.
    destruct (Distribution_init_cases
                (expand_to [] (scalar_tensor (-1)))
                (Probs (expand_to [] (scalar_tensor (/ 2)))) [] (Some true))
      as [(_ & _ & V')|([D|[C _]] & _)]; auto.
    + discriminate.
    + simpl in C. inversion C. lra.
Qed.

Lemma validation_error_witness :
  is_validation_error
    (__init__ (scalar_tensor (-1)) (Some (scalar_tensor (/ 2))) None
       (Some true)) = true <->
  validation_enabled (Some true) = true /\
  ~ constraints_hold (expand_to [] (scalar_tensor (-1)))
      (stored_param (Some (scalar_tensor (/ 2))) [] (scalar_tensor (/ 2))).
Proof.
  apply (validation_error (fun _ => 0) float32_eps
           (scalar_tensor (-1)) (Some (scalar_tensor (/ 2))) None (Some true)
           (scalar_tensor (/ 2)) [] (scalar_tensor (/ 2))).
  - left. split; reflexivity.
  - reflexivity.
Defined.

(** C5 as stated fails on a construction that gives both [probs] and
    [logits]: validation is enabled and [total_count = -1] violates its
    constraint, but the check of the two arguments comes first and the
    error raised is the [ConfigurationError]. *)
Lemma validation_error_counterexample :
  validation_enabled (Some true) = true /\
  ~ Forall (fun t => 0 <= t) (storage (scalar_tensor (-1))) /\
  is_validation_error
    (__init__ (scalar_tensor (-1)) (Some (scalar_tensor (/ 2)))
       (Some (scalar_tensor 0)) (Some true)) = false /\
  is_configuration_error
    (__init__ (scalar_tensor (-1)) (Some (scalar_tensor (/ 2)))
       (Some (scalar_tensor 0)) (Some true)) = true.
Proof.
  split; [reflexivity|]. split; [|split; reflexivity].
  intros H. simpl in H. inversion H. lra.
Qed.

(** ** Sampling *)

Section SampleProperties.

Variable eps : R.
Variable generator : Type.
Variable standard_gamma_draw : R -> generator -> result R * generator.
Variable poisson_draw : R -> generator -> result R * generator.

Local Abbreviation sample' := (sample eps standard_gamma_draw poisson_draw).
Local Abbreviation sample_body' :=
  (sample_body eps standard_gamma_draw poisson_draw).


(** C6.  [sample] is its body run with gradient tracking disabled, and
    whatever the body returns or raises, the gradient mode after [sample]
    is the one before it and nothing was added to the autograd history. *)
Theorem sample_no_grad_scope self sample_shape (w : world generator) :
  sample' self sample_shape w
  = (fst (sample_body' self sample_shape (set_grad_enabled false w)),
     set_grad_enabled (grad_enabled w)
       (snd (sample_body' self sample_shape (set_grad_enabled false w)))) /\
  grad_enabled (set_grad_enabled false w) = false /\
  grad_enabled (snd (sample' self sample_shape w)) = grad_enabled w /\
  tape (snd (sample' self sample_shape w)) = tape w.
Proof.
  split; [|split; [|split]].
  - unfold sample, no_grad.
    now destruct (sample_body' self sample_shape (set_grad_enabled false w)).
  - reflexivity.
  - apply no_grad_restores.
  - apply no_grad_quiet, quiet_sample_body.
Qed.

(** C8.  With [total_count] of shape (3,) and [probs] of shape (1,), a
    construction without validation returns an instance, every instance
    constructed has [batch_shape = (3,)] with a [total_count] and a
    [probs] of three elements, and [sample(sample_shape=(2,))] returns a
    well-formed tensor of shape (2, 3): six elements, each drawn by the
    Poisson sampler. *)
Theorem shapes_example tc p va (w : world generator) :
  (forall x g, is_ok (fst (standard_gamma_draw x g)) = true) ->
  (forall x g, is_ok (fst (poisson_draw x g)) = true) ->
  wf tc -> wf p -> sizes tc = [3%nat] -> sizes p = [1%nat] ->
  (validation_enabled va = false ->
   exists self, __init__ tc (Some p) None va = Ok self) /\
  forall self,
    __init__ tc (Some p) None va = Ok self ->
    batch_shape self = [3%nat] /\
    length (storage (total_count self)) = 3%nat /\
    length (storage (probs self)) = 3%nat /\
    exists t w',
      sample' self [2%nat] w = (Ok t, w') /\ sizes t = [2; 3]%nat /\
      wf t /\ length (storage t) = 6%nat.
Proof.
  intros Tg Tp Wt Wp St Sp.
  assert (Hs : infer_size (sizes tc) (sizes p) = Some [3%nat])
    by (rewrite St, Sp; reflexivity).
  split.
  - apply (init_disabled_ok tc (Some p) None va p [3%nat]); auto.
    left; auto.
  - intros self Hinit.
    destruct (init_ok_inv _ _ _ _ _ Hinit) as (x & s & Hx & Hs' & _ & Hb & _).
    destruct Hx as [(Ex & _)|(Ex & _)]; [|discriminate].
    injection Ex as <-. rewrite Hs in Hs'. injection Hs' as <-.
    split; [exact Hb|].
    assert (V : valid_instance self)
      by (apply (init_valid tc (Some p) None va); simpl; auto).
    pose proof V as (W1 & W2 & S1 & S2).
    split; [rewrite W1, S1, Hb; reflexivity|].
    split.
    { unfold probs, _param in *. destruct (param self) as [q|l].
      - rewrite W2, S2, Hb. reflexivity.
      - unfold logits_to_probs, tmap. simpl.
        rewrite length_map, W2, S2, Hb. reflexivity. }
    destruct (sample_run eps generator standard_gamma_draw poisson_draw
                Tg Tp self [2%nat] w V)
      as (g & lam & t & w1 & w2 & w3 & _ & _ & _ & _ & _ & _ & E & S & W
          & _).
    exists t, (set_grad_enabled (grad_enabled w) w3).
    assert (Sz : sizes t = [2; 3]%nat) by (now rewrite S, Hb).
    repeat split; auto. rewrite W, Sz. reflexivity.
Qed.

End SampleProperties.





Lemma shapes_example_witness :
  exists self,
    __init__ (mkTensor [3%nat] [1; 2; 3]) (Some (mkTensor [1%nat] [/ 2]))
      None None = Ok self /\
    batch_shape self = [3%nat] /\
    exists t w',
      sample float32_eps (fun x g => (Ok x, S g))
        (fun _ g => (Ok (INR g), S g))
        self [2%nat] (mkWorld true 0%nat [])
      = (Ok t, w') /\
      sizes t = [2; 3]%nat /\ length (storage t) = 6%nat.
Proof.
  destruct (shapes_example float32_eps nat
              (fun x g => (Ok x, S g)) (fun _ g => (Ok (INR g), S g))
              (mkTensor [3%nat] [1; 2; 3]) (mkTensor [1%nat] [/ 2]) None
              (mkWorld true 0%nat []))
    as [H1 H2].
  - intros x g. reflexivity.
  - intros x g. reflexivity.
  - reflexivity.
  - reflexivity.
  - reflexivity.
  - reflexivity.
  - destruct (H1 eq_refl) as [self Hself].
    exists self. split; [exact Hself|].
    destruct (H2 self Hself) as (Hb & _ & _ & t & w' & E & Sz & _ & L).
    split; [exact Hb|]. exists t, w'. auto.
Defined.

(** A draw that raises: [sample] raises too, with the gradient mode
    restored and the history untouched. *)
Example sample_raises_restores :
  sample float32_eps (fun x g => (Ok x, S g))
    (fun _ g => (Err BroadcastError, g))
    (mkNegativeBinomial (mkTensor [] [1]) (Logits (mkTensor [] [0])) [] false)
    [] (mkWorld true 0%nat [])
  = (Err BroadcastError, mkWorld true 1%nat []).
Proof. reflexivity. Qed.

(** Without the scope the same body, run with tracking enabled, enters the
    history. *)
Example sample_body_tracked :
  tape (snd (sample_body float32_eps (fun x g => (Ok x, S g))
               (fun _ g => (Ok (INR g), S g))
               (mkNegativeBinomial (mkTensor [] [1]) (Logits (mkTensor [] [0]))
                  [] false)
               [] (mkWorld true 0%nat [])))
  = ["poisson"; "div"; "_standard_gamma"; "exp"; "neg"]%string.
Proof. reflexivity. Qed.

Example sample_untracked :
  snd (sample float32_eps (fun x g => (Ok x, S g)) (fun _ g => (Ok (INR g), S g))
         (mkNegativeBinomial (mkTensor [] [1]) (Logits (mkTensor [] [0]))
            [] false)
         [] (mkWorld true 0%nat []))
  = mkWorld true 2%nat [].
Proof. reflexivity. Qed.

(** * Further properties of the code *)

(** ** Construction: the error of the broadcast and what is stored *)

Lemma Distribution_init_not_broadcast_error tc pm bs va :
  is_broadcast_error (Distribution_init tc pm bs va) = false.
Proof.
  destruct (Distribution_init_cases tc pm bs va) as [(_ & _ & E)|(_ & E)].
  - destruct (Distribution_init tc pm bs va) as [?|[]]; auto; discriminate.
  - now rewrite E.
Qed.

Lemma given_inj op ol x y : given op ol x -> given op ol y -> x = y.
Proof. intros [[E1 E2]|[E1 E2]] [[E3 E4]|[E3 E4]]; congruence. Qed.

(** X1.  [__init__] raises the error of the broadcast exactly when exactly
    one of [probs], [logits] is given and its shape does not broadcast
    against the shape of [total_count]; the validation flag and the values
    play no part. *)
Theorem init_broadcast_error tc op ol va :
  is_broadcast_error (__init__ tc op ol va) = true <->
  exists x, given op ol x /\ infer_size (sizes tc) (sizes x) = None.
Proof.
  destruct op as [p|], ol as [l|].
  - split; [discriminate|]. intros (x & [[_ E]|[E _]] & _); discriminate.
  - unfold __init__, broadcast_all. simpl.
    destruct (infer_size (sizes tc) (sizes p)) as [s|] eqn:Es; simpl.
    + rewrite Distribution_init_not_broadcast_error.
      split; [discriminate|]. intros (x & Hx & Hn).
      rewrite (given_inj _ _ x p Hx) in Hn by (left; auto). congruence.
    + split; auto. intros _. exists p. split; auto. left; auto.
  - unfold __init__, broadcast_all. simpl.
    destruct (infer_size (sizes tc) (sizes l)) as [s|] eqn:Es; simpl.
    + rewrite Distribution_init_not_broadcast_error.
      split; [discriminate|]. intros (x & Hx & Hn).
      rewrite (given_inj _ _ x l Hx) in Hn by (right; auto). congruence.
    + split; auto. intros _. exists l. split; auto. right; auto.
  - split; [discriminate|]. intros (x & [[E _]|[_ E]] & _); discriminate.
Qed.

Lemma init_ok_given tc op ol va self x :
  __init__ tc op ol va = Ok self -> given op ol x ->
  infer_size (sizes tc) (sizes x) = Some (_batch_shape self) /\
  total_count self = expand_to (_batch_shape self) tc /\
  _param self = expand_to (_batch_shape self) x /\
  (op = Some x -> param self = Probs (expand_to (_batch_shape self) x)) /\
  (ol = Some x -> param self = Logits (expand_to (_batch_shape self) x)).
Proof.
  intros H Hg.
  destruct (init_ok_inv _ _ _ _ _ H) as (y & s & Hy & Hs & Ht & Hb & _).
  assert (Gy : given op ol y).
  { destruct Hy as [(E1 & E2 & _)|(E1 & E2 & _)]; [left | right]; auto. }
  rewrite (given_inj _ _ x y Hg Gy). rewrite Hb.
  repeat split; auto.
  - unfold _param. destruct Hy as [(_ & _ & ->)|(_ & _ & ->)]; reflexivity.
  - intros E. destruct Hy as [(_ & _ & P)|(E' & _)]; [exact P | congruence].
  - intros E. destruct Hy as [(_ & E' & _)|(_ & _ & P)]; [congruence | exact P].
Qed.

(** X2.  The [batch_shape] of a constructed instance is the common shape
    of [total_count] and the given parameter; the given parameter is stored
    expanded to it, and [total_count], [probs] and [logits] all have that
    shape and are well formed. *)
Theorem init_common_shape (eps : R) tc op ol va self x :
  wf tc -> wf x -> given op ol x ->
  __init__ tc op ol va = Ok self ->
  infer_size (sizes tc) (sizes x) = Some (batch_shape self) /\
  _param self = expand_to (batch_shape self) x /\
  sizes (total_count self) = batch_shape self /\
  sizes (probs self) = batch_shape self /\
  sizes (logits eps self) = batch_shape self /\
  wf (total_count self) /\ wf (probs self) /\ wf (logits eps self).
Proof.
  intros Wt Wx Hg H.
  destruct (init_ok_given _ _ _ _ _ _ H Hg) as (Hs & Ht & Hp & _).
  assert (V : valid_instance self).
  { apply (init_valid tc op ol va); auto;
      destruct Hg as [[-> ->]|[-> ->]]; simpl; auto. }
  pose proof (sizes_logits eps self V) as Sl.
  pose proof (wf_logits eps self V) as Wl.
  destruct V as (W1 & W2 & S1 & S2).
  unfold batch_shape. repeat split; auto.
  - unfold probs, _param in *. destruct (param self); auto.
  - unfold probs, _param in *. destruct (param self); auto.
    now apply wf_tmap.
Qed.

Lemma init_common_shape_witness :
  infer_size [2; 1]%nat [3%nat]
  = Some (batch_shape
            (mkNegativeBinomial (mkTensor [2; 3]%nat [1; 1; 1; 2; 2; 2])
               (Logits (mkTensor [2; 3]%nat [0; 1; 2; 0; 1; 2]))
               [2; 3]%nat false)).
Proof.
  apply (init_common_shape float32_eps
           (mkTensor [2; 1]%nat [1; 2]) None
           (Some (mkTensor [3%nat] [0; 1; 2])) None
           (mkNegativeBinomial (mkTensor [2; 3]%nat [1; 1; 1; 2; 2; 2])
              (Logits (mkTensor [2; 3]%nat [0; 1; 2; 0; 1; 2]))
              [2; 3]%nat false)
           (mkTensor [3%nat] [0; 1; 2])).
  - reflexivity.
  - reflexivity.
  - right. split; reflexivity.
  - reflexivity.
Defined.

(** X3.  When [total_count] and the given parameter already have the same
    shape, that shape is the [batch_shape] and the given parameter is
    stored unchanged: reading the given one of [probs], [logits] returns
    the argument. *)
Theorem init_same_shape (eps : R) tc op ol va self x :
  wf tc -> wf x -> given op ol x -> sizes tc = sizes x ->
  __init__ tc op ol va = Ok self ->
  batch_shape self = sizes x /\
  (op = Some x -> probs self = x) /\
  (ol = Some x -> logits eps self = x).
Proof.
  intros Wt Wx Hg Hsz H.
  destruct (init_ok_given _ _ _ _ _ _ H Hg) as (Hs & Ht & _ & Hp & Hl).
  rewrite Hsz, infer_size_refl in Hs. injection Hs as Hs.
  unfold batch_shape. rewrite <- Hs in *.
  rewrite expand_to_self in Hp, Hl by exact Wx.
  rewrite <- Hsz, expand_to_self in Ht by exact Wt.
  repeat split; auto.
  - intros E. unfold probs. now rewrite (Hp E).
  - intros E. unfold logits. now rewrite (Hl E).
Qed.

Lemma init_same_shape_witness :
  probs (mkNegativeBinomial (mkTensor [2%nat] [1; 2])
           (Probs (mkTensor [2%nat] [/ 2; / 4])) [2%nat] false)
  = mkTensor [2%nat] [/ 2; / 4].
Proof.
  apply (init_same_shape float32_eps
           (mkTensor [2%nat] [1; 2]) (Some (mkTensor [2%nat] [/ 2; / 4]))
           None None
           (mkNegativeBinomial (mkTensor [2%nat] [1; 2])
              (Probs (mkTensor [2%nat] [/ 2; / 4])) [2%nat] false)
           (mkTensor [2%nat] [/ 2; / 4])).
  - reflexivity.
  - reflexivity.
  - left. split; reflexivity.
  - reflexivity.
  - reflexivity.
  - reflexivity.
Defined.

Lemma concat_repeat_repeat {A : Type} (x : A) n b :
  concat (repeat (repeat x n) b) = repeat x (b * n).
Proof.
  induction b as [|b IH]; simpl; auto. now rewrite IH, repeat_app.
Qed.

Lemma expand_data_singleton {A : Type} (x : A) s :
  expand_data (repeat 1%nat (length s)) s [x] = repeat x (numel s).
Proof.
  induction s as [|b s IH]; auto.
  change (repeat 1%nat (length (b :: s)))
    with (1%nat :: repeat 1%nat (length s)).
  destruct (Nat.eq_dec b 1) as [->|Hb].
  - rewrite expand_data_one_one by (now rewrite numel_repeat_1).
    rewrite IH. simpl. now rewrite Nat.add_0_r.
  - rewrite expand_data_one by exact Hb. rewrite IH.
    apply concat_repeat_repeat.
Qed.

(** A 0-dimensional tensor expands to any shape, filling it. *)
Lemma expand_to_scalar {A : Type} (x : A) s :
  expand_to s (scalar_tensor x) = mkTensor s (repeat x (numel s)).
Proof.
  unfold expand_to, scalar_tensor, pad. simpl.
  rewrite Nat.sub_0_r, app_nil_r. now rewrite expand_data_singleton.
Qed.

Lemma expandable_nil s : expandable [] s = true.
Proof.
  unfold expandable, pad. simpl. rewrite Nat.sub_0_r, app_nil_r.
  rewrite <- (app_nil_r s) at 2.
  rewrite <- (app_nil_r (repeat 1%nat (length s))).
  now apply dims_expand_ones_any.
Qed.

Lemma infer_size_nil_l s : infer_size [] s = Some s.
Proof. rewrite infer_size_comm. apply infer_size_absorb, expandable_nil. Qed.

(** X4.  A 0-dimensional [total_count] is filled into the shape of the
    given parameter: the batch shape is the shape of that parameter, which
    is stored unchanged, and the stored [total_count] has that shape and
    holds one and the same value in every element. *)
Theorem init_scalar_total_count c op ol va self x :
  wf x -> given op ol x ->
  __init__ (scalar_tensor c) op ol va = Ok self ->
  batch_shape self = sizes x /\
  _param self = x /\
  exists c',
    total_count self = mkTensor (sizes x) (repeat c' (numel (sizes x))).
Proof.
  intros Wx Hg H.
  destruct (init_ok_given _ _ _ _ _ _ H Hg) as (Hs & Ht & Hp & _).
  simpl in Hs. rewrite infer_size_nil_l in Hs. injection Hs as Hs.
  unfold batch_shape. rewrite <- Hs in *.
  rewrite expand_to_self in Hp by exact Wx.
  rewrite expand_to_scalar in Ht. eauto.
Qed.

Lemma init_scalar_total_count_witness :
  _param
    (mkNegativeBinomial (mkTensor [3%nat] [5; 5; 5])
       (Probs (mkTensor [3%nat] [/ 2; / 3; / 4])) [3%nat] false)
  = mkTensor [3%nat] [/ 2; / 3; / 4].
Proof.
  apply (init_scalar_total_count 5
           (Some (mkTensor [3%nat] [/ 2; / 3; / 4])) None None
           (mkNegativeBinomial (mkTensor [3%nat] [5; 5; 5])
              (Probs (mkTensor [3%nat] [/ 2; / 3; / 4])) [3%nat] false)
           (mkTensor [3%nat] [/ 2; / 3; / 4])).
  - reflexivity.
  - left. split; reflexivity.
  - reflexivity.
Defined.

(** X5.  With an empty batch (a common shape with a dimension of size 0)
    nothing is left to validate: a construction with exactly one of
    [probs], [logits] returns an instance with an empty [total_count],
    also with validation enabled and whatever the values given. *)
Theorem init_empty_batch tc op ol va x s :
  wf tc -> wf x -> given op ol x ->
  infer_size (sizes tc) (sizes x) = Some s -> numel s = 0%nat ->
  exists self,
    __init__ tc op ol va = Ok self /\
    batch_shape self = s /\
    storage (total_count self) = [] /\ storage (_param self) = [].
Proof.
  intros Wt Wx Hg Hs Hn.
  destruct (infer_size_expandable _ _ _ Hs) as [Et Ex].
  assert (Nt : storage (expand_to s tc) = []).
  { apply length_zero_iff_nil. rewrite <- Hn.
    apply (wf_expand_to s tc). split; auto. }
  assert (Nx : storage (expand_to s x) = []).
  { apply length_zero_iff_nil. rewrite <- Hn.
    apply (wf_expand_to s x). split; auto. }
  destruct (init_given tc op ol va x s Hg Hs) as (pm & Epm & E).
  destruct (Distribution_init_cases (expand_to s tc) pm s va)
    as [(_ & N & _)|(_ & Eok)].
  - exfalso. apply N. unfold constraints_hold. rewrite Nt. split; auto.
    subst pm. destruct op; [|exact I].
    change (Forall (fun q => 0 <= q < 1) (storage (expand_to s x))).
    rewrite Nx. constructor.
  - rewrite E, Eok. eexists. split; [reflexivity|].
    unfold batch_shape, _param. simpl. repeat split; auto.
    subst pm. destruct op; simpl; exact Nx.
Qed.

Lemma init_empty_batch_witness :
  exists self,
    __init__ (scalar_tensor (-1)) (Some (mkTensor [0%nat] [])) None
      (Some true) = Ok self /\
    batch_shape self = [0%nat] /\
    storage (total_count self) = [] /\ storage (_param self) = [].
Proof.
  apply (init_empty_batch (scalar_tensor (-1)) (Some (mkTensor [0%nat] []))
           None (Some true) (mkTensor [0%nat] []) [0%nat]).
  - reflexivity.
  - reflexivity.
  - left. split; reflexivity.
  - reflexivity.
  - reflexivity.
Defined.

(** ** The two parametrizations *)

Lemma logit_sigmoid z : ln (sigmoid z) - ln (1 + - sigmoid z) = z.
Proof.
  pose proof (sigmoid_pos z) as H0. pose proof (sigmoid_lt_1 z) as H1.
  rewrite <- (ln_exp z) at 3. rewrite (exp_odds z). unfold Rdiv.
  rewrite ln_mult, ln_Rinv; try lra.
  - unfold Rminus. reflexivity.
  - apply Rinv_0_lt_compat. lra.
Qed.

(** X7.  An instance constructed with validation enabled has passed the
    checks the class declares: every element of its [total_count] is
    non-negative and, when it was built from [probs], every element of its
    [probs] lies in [[0, 1)]; and it validates the values passed to
    [log_prob]. *)
Theorem validated_instance_constraints tc op ol va self :
  validation_enabled va = true ->
  __init__ tc op ol va = Ok self ->
  _validate_args self = true /\
  Forall (fun t => 0 <= t) (storage (total_count self)) /\
  (op <> None -> Forall (fun p => 0 <= p < 1) (storage (probs self))).
Proof.
  intros Ev H.
  destruct (init_ok_inv _ _ _ _ _ H) as (x & s & Hx & Hs & _ & _ & Hv).
  fold (validation_enabled va) in Hv. rewrite Ev in Hv.
  assert (Hg : given op ol x).
  { destruct Hx as [(E1 & E2 & _)|(E1 & E2 & _)]; [left | right]; auto. }
  destruct (init_given tc op ol va x s Hg Hs) as (pm & Epm & E).
  rewrite E in H.
  destruct (Distribution_init_cases (expand_to s tc) pm s va)
    as [(_ & _ & V)|(C & Eok)].
  - rewrite H in V. discriminate.
  - rewrite Eok in H. injection H as <-. simpl.
    destruct C as [C|[Ct Cp]]; [congruence|].
    repeat split; auto.
    intros Hop. unfold probs. simpl. subst pm.
    destruct op; [exact Cp | congruence].
Qed.

Lemma validated_instance_constraints_witness :
  exists self,
    __init__ (mkTensor [2%nat] [0; 3]) (Some (mkTensor [2%nat] [0; / 2]))
      None (Some true) = Ok self /\
    _validate_args self = true /\
    Forall (fun t => 0 <= t) (storage (total_count self)).
Proof.
  destruct (init_given (mkTensor [2%nat] [0; 3])
              (Some (mkTensor [2%nat] [0; / 2])) None (Some true)
              (mkTensor [2%nat] [0; / 2]) [2%nat])
    as (pm & -> & E); [left; auto | reflexivity |].
  destruct (Distribution_init_cases
              (expand_to [2%nat] (mkTensor [2%nat] [0; 3]))
              (Probs (expand_to [2%nat] (mkTensor [2%nat] [0; / 2])))
              [2%nat] (Some true))
    as [(_ & N & _)|(_ & E')].
  - exfalso. apply N. split; simpl; repeat constructor; lra.
  - rewrite E' in E. eexists. split; [exact E|].
    destruct (validated_instance_constraints _ _ _ (Some true) _ eq_refl E)
      as (V & T & _).
    split; [exact V | exact T].
Defined.

(** ** Moments: the variance in terms of the mean *)

Lemma inv_sigmoid_opp l : / sigmoid (- l) = 1 + exp l.
Proof.
  unfold sigmoid. rewrite Ropp_involutive, Rinv_inv. reflexivity.
Qed.

Lemma variance_mean_list ts ls :
  zip_with (fun x l => x / sigmoid (- l))
    (zip_with (fun t l => t * exp l) ts ls) ls
  = zip_with (fun x l => x * (1 + exp l))
      (zip_with (fun t l => t * exp l) ts ls) ls.
Proof.
  apply zip_with_ext. intros x l. unfold Rdiv. now rewrite inv_sigmoid_opp.
Qed.

Lemma variance_quadratic_list ts ls :
  Forall (fun t => t <> 0) ts ->
  zip_with (fun x l => x / sigmoid (- l))
    (zip_with (fun t l => t * exp l) ts ls) ls
  = zip_with (fun x t => x + x * x / t)
      (zip_with (fun t l => t * exp l) ts ls) ts.
Proof.
  intros H; revert ls; induction H as [|t ts Ht Hts IH]; intros [|l ls];
    simpl; auto.
  f_equal; auto. unfold Rdiv. rewrite inv_sigmoid_opp. field. exact Ht.
Qed.

Lemma strict_overdispersion_list ts ls :
  Forall (fun t => 0 < t) ts ->
  Forall (fun x => 0 < x) (zip_with (fun t l => t * exp l) ts ls) /\
  Forall2 Rlt
    (zip_with (fun t l => t * exp l) ts ls)
    (zip_with (fun x l => x / sigmoid (- l))
       (zip_with (fun t l => t * exp l) ts ls) ls).
Proof.
  intros H; revert ls; induction H as [|t ts Ht Hts IH]; intros [|l ls];
    simpl; try solve [split; constructor].
  destruct (IH ls) as [I1 I2]. pose proof (exp_pos l) as He.
  assert (Hm : 0 < t * exp l) by (now apply Rmult_lt_0_compat).
  split; constructor; auto.
  unfold Rdiv. rewrite inv_sigmoid_opp. nra.
Qed.

(** X9.  On every constructed instance the variance is the mean times
    [1 + exp(logits)], element by element; where [total_count] is not zero
    it is [mean + mean^2 / total_count], the quadratic mean-variance
    relation of the distribution. *)
Theorem variance_of_mean (eps : R) tc op ol va self :
  wf tc -> wf_opt op -> wf_opt ol ->
  __init__ tc op ol va = Ok self ->
  exists m v,
    mean eps self = Ok m /\ variance eps self = Ok v /\
    storage v = zip_with (fun x l => x * (1 + exp l))
                  (storage m) (storage (logits eps self)) /\
    (Forall (fun t => t <> 0) (storage (total_count self)) ->
     storage v = zip_with (fun x t => x + x * x / t)
                   (storage m) (storage (total_count self))).
Proof.
  intros Wt Wp Wl Hinit.
  pose proof (init_valid _ _ _ _ _ Wt Wp Wl Hinit) as V.
  eexists. eexists.
  split; [apply (mean_valid_instance eps self V)|].
  split; [apply (variance_valid_instance eps self V)|].
  simpl. split.
  - apply variance_mean_list.
  - apply variance_quadratic_list.
Qed.

Lemma variance_of_mean_witness :
  exists m v,
    mean float32_eps
      (mkNegativeBinomial (mkTensor [] [2]) (Logits (mkTensor [] [0]))
         [] false) = Ok m /\
    variance float32_eps
      (mkNegativeBinomial (mkTensor [] [2]) (Logits (mkTensor [] [0]))
         [] false) = Ok v /\
    storage m = [2] /\ storage v = [4].
Proof.
  destruct (variance_of_mean float32_eps
              (scalar_tensor 2) None (Some (scalar_tensor 0)) None
              (mkNegativeBinomial (mkTensor [] [2])
                 (Logits (mkTensor [] [0])) [] false))
    as (m & v & Em & Ev & _ & H).
  - reflexivity.
  - exact I.
  - reflexivity.
  - reflexivity.
  - exists m, v. split; [exact Em|]. split; [exact Ev|].
    assert (Sm : storage m = [2]).
    { unfold mean in Em. simpl in Em. injection Em as <-. simpl.
      rewrite exp_0. f_equal. lra. }
    split; [exact Sm|].
    rewrite H, Sm by (simpl; constructor; [lra | constructor]).
    simpl. f_equal. field.
Defined.

(** ** Log-density: errors and the value zero *)

Section LogProbFacts.

Variable lgamma : R -> R.
Variable eps : R.

Lemma log_prob_not_broadcastable self value :
  valid_instance self ->
  (_validate_args self = true ->
   Forall (fun x => support x = true) (storage value)) ->
  infer_size (batch_shape self) (sizes value) = None ->
  log_prob lgamma eps self value = Err BroadcastError.
Proof.
  intros V Hsup Hn.
  pose proof (sizes_logits eps self V) as Sl.
  pose proof (wf_logits eps self V) as Wl.
  destruct V as (Wt & _ & St & _).
  unfold batch_shape in Hn. unfold log_prob.
  replace (if _validate_args self then _validate_sample self value
           else Ok tt) with (@Ok unit tt).
  - simpl bind. rewrite binop_same_shape.
    + simpl bind. unfold binop at 1. simpl sizes.
      now rewrite Sl, infer_size_comm, Hn.
    + exact Wt.
    + now repeat apply wf_tmap.
    + simpl. now rewrite St, Sl.
  - destruct (_validate_args self); auto.
    symmetry. apply validate_sample_ok. auto.
Qed.

Lemma infer_size_prepend p s : infer_size s (p ++ s) = Some (p ++ s)%list.
Proof.
  rewrite infer_size_comm. apply infer_size_absorb, expandable_prepend.
Qed.

Lemma zip_with3_repeat {A B C D : Type} (f : A -> B -> C -> D) l1 l2 c n :
  length l1 = n -> length l2 = n ->
  zip_with3 f l1 l2 (repeat c n) = zip_with (fun a b => f a b c) l1 l2.
Proof.
  revert l2 n; induction l1 as [|a l1 IH]; intros [|b l2] [|n]; simpl;
    intros H1 H2; try discriminate; auto.
  f_equal. apply IH; lia.
Qed.

Lemma log_prob_elem_zero t l :
  log_prob_elem lgamma t l 0 = t * logsigmoid (- l) - lgamma 1.
Proof.
  unfold log_prob_elem, log_unnorm, log_norm.
  replace (t + 0) with t by lra. replace (1 + 0) with 1 by lra. ring.
Qed.

End LogProbFacts.

(** X11.  For a value in the support, [log_prob] on a constructed instance
    is decided by the shapes alone: it returns a tensor of the common shape
    when the shape of the value broadcasts against [batch_shape], and
    raises the error of the broadcast when it does not. *)
Theorem log_prob_broadcast (lgamma : R -> R) (eps : R)
    tc op ol va self value :
  wf tc -> wf_opt op -> wf_opt ol -> wf value ->
  __init__ tc op ol va = Ok self ->
  Forall (fun x => support x = true) (storage value) ->
  match infer_size (batch_shape self) (sizes value) with
  | Some s => exists r, log_prob lgamma eps self value = Ok r /\ sizes r = s
  | None => log_prob lgamma eps self value = Err BroadcastError
  end.
Proof.
  intros Wt Wp Wl Wv Hinit Hsup.
  pose proof (init_valid _ _ _ _ _ Wt Wp Wl Hinit) as V.
  destruct (infer_size (batch_shape self) (sizes value)) as [s|] eqn:Es.
  - destruct (log_prob_valid_instance lgamma eps self value s V Wv Es Hsup)
      as (r & Er & Sr & _).
    exists r. auto.
  - apply log_prob_not_broadcastable; auto.
Qed.

Lemma log_prob_broadcast_witness :
  log_prob (fun _ => 0) float32_eps
    (mkNegativeBinomial (mkTensor [2%nat] [1; 2])
       (Probs (mkTensor [2%nat] [/ 2; / 2])) [2%nat] false)
    (mkTensor [3%nat] [0; 1; 2])
  = Err BroadcastError.
Proof.
  apply (log_prob_broadcast (fun _ => 0) float32_eps
           (mkTensor [2%nat] [1; 2]) (Some (scalar_tensor (/ 2))) None None
           (mkNegativeBinomial (mkTensor [2%nat] [1; 2])
              (Probs (mkTensor [2%nat] [/ 2; / 2])) [2%nat] false)
           (mkTensor [3%nat] [0; 1; 2])).
  - reflexivity.
  - reflexivity.
  - exact I.
  - reflexivity.
  - reflexivity.
  - repeat constructor; apply support_true;
      [exists 0%nat | exists 1%nat | exists 2%nat]; simpl; lra.
Defined.

(** X13.  Where [total_count] is positive, the log-density of the count
    zero, passed as a 0-dimensional tensor, has the batch shape and is
    [total_count * log_sigmoid(-logits) - lgamma(1)], element by element:
    the two [lgamma(total_count)] terms cancel. *)
Theorem log_prob_zero (lgamma : R -> R) (eps : R) tc op ol va self :
  wf tc -> wf_opt op -> wf_opt ol ->
  __init__ tc op ol va = Ok self ->
  Forall (fun t => 0 < t) (storage (total_count self)) ->
  exists r,
    log_prob lgamma eps self (scalar_tensor 0) = Ok r /\
    sizes r = batch_shape self /\
    storage r = zip_with (fun t l => t * logsigmoid (- l) - lgamma 1)
                  (storage (total_count self))
                  (storage (logits eps self)).
Proof.
  intros Wt Wp Wl Hinit _.
  pose proof (init_valid _ _ _ _ _ Wt Wp Wl Hinit) as V.
  pose proof (sizes_logits eps self V) as Sl.
  pose proof (wf_logits eps self V) as Wlg.
  destruct (log_prob_valid_instance lgamma eps self (scalar_tensor 0)
              (_batch_shape self) V)
    as (r & Er & Sr & Wr & Dr).
  - reflexivity.
  - apply infer_size_absorb, expandable_nil.
  - repeat constructor. apply support_true. exists 0%nat. reflexivity.
  - destruct V as (Wtc & _ & St & _).
    exists r. repeat split; auto.
    rewrite Dr. unfold at_shape at 3. rewrite expand_to_scalar. simpl.
    rewrite <- St at 1. rewrite at_shape_self by exact Wtc.
    rewrite <- Sl at 1. rewrite at_shape_self by exact Wlg.
    rewrite zip_with3_repeat.
    + apply zip_with_ext. intros t l. apply log_prob_elem_zero.
    + now rewrite Wtc, St.
    + now rewrite Wlg, Sl.
Qed.

Lemma log_prob_zero_witness :
  exists r,
    log_prob (fun _ => 0) float32_eps
      (mkNegativeBinomial (mkTensor [2%nat] [5; 6])
         (Logits (mkTensor [2%nat] [0; 1])) [2%nat] false)
      (scalar_tensor 0) = Ok r /\
    sizes r = [2%nat].
Proof.
  destruct (log_prob_zero (fun _ => 0) float32_eps
              (mkTensor [2%nat] [5; 6]) None
              (Some (mkTensor [2%nat] [0; 1])) None
              (mkNegativeBinomial (mkTensor [2%nat] [5; 6])
                 (Logits (mkTensor [2%nat] [0; 1])) [2%nat] false))
    as (r & Er & Sr & _).
  - reflexivity.
  - exact I.
  - reflexivity.
  - reflexivity.
  - simpl. repeat constructor; lra.
  - exists r. auto.
Defined.

(** ** Log-density: from one count to the next *)

Lemma fold_right_Rplus_snoc l a :
  fold_right Rplus 0 (l ++ [a]) = fold_right Rplus 0 l + a.
Proof. induction l as [|x l IH]; simpl; [lra|]. rewrite IH. lra. Qed.

Lemma Int_part_nonneg y : 0 < y -> (0 <= Int_part y)%Z.
Proof.
  intros Hy. pose proof (base_fp y) as [H0 H1]. unfold frac_part in *.
  assert (H : -1 < IZR (Int_part y)) by lra.
  apply lt_IZR in H. lia.
Qed.

Lemma lgamma_steps_succ y :
  0 < y -> lgamma_steps (y + 1) = lgamma_steps y + ln y.
Proof.
  intros Hy. pose proof (base_fp y) as [H0 H1].
  assert (F1 : frac_part 1 = 0) by apply (frac_part_INR 1).
  assert (I1 : Int_part 1 = 1%Z) by apply (Int_part_INR 1).
  assert (Hf : frac_part (y + 1) = frac_part y).
  { rewrite plus_frac_part2 by (rewrite F1; lra). rewrite F1. lra. }
  assert (Hi : Int_part (y + 1) = (Int_part y + 1)%Z).
  { rewrite plus_Int_part2 by (rewrite F1; lra). now rewrite I1. }
  pose proof (Int_part_nonneg y Hy) as Hn.
  unfold lgamma_steps. rewrite Hf, Hi.
  rewrite Z2Nat.inj_add by lia.
  change (Z.to_nat 1) with 1%nat. rewrite Nat.add_1_r, seq_S, map_app.
  simpl. rewrite fold_right_Rplus_snoc. f_equal. f_equal.
  rewrite INR_IZR_INZ, Z2Nat.id by exact Hn.
  unfold frac_part. lra.
Qed.

Lemma log_prob_elem_succ (lgamma : R -> R) t l x :
  (forall y, 0 < y -> lgamma (y + 1) = lgamma y + ln y) ->
  0 < t -> 0 <= x ->
  log_prob_elem lgamma t l (1 + x)
  = log_prob_elem lgamma t l x + (logsigmoid l + ln (t + x) - ln (1 + x)).
Proof.
  intros Hrec Ht Hx. unfold log_prob_elem, log_unnorm, log_norm.
  replace (t + (1 + x)) with ((t + x) + 1) by lra.
  replace (1 + (1 + x)) with ((1 + x) + 1) by lra.
  rewrite !Hrec by lra. ring.
Qed.

Lemma log_prob_succ_list (lgamma : R -> R) ts ls xs :
  (forall y, 0 < y -> lgamma (y + 1) = lgamma y + ln y) ->
  Forall (fun t => 0 < t) ts -> Forall (fun x => 0 <= x) xs ->
  zip_with3 (log_prob_elem lgamma) ts ls (map (Rplus 1) xs)
  = zip_with Rplus
      (zip_with3 (log_prob_elem lgamma) ts ls xs)
      (zip_with3 (fun t l x => logsigmoid l + ln (t + x) - ln (1 + x))
         ts ls xs).
Proof.
  intros Hrec Ht; revert ls xs; induction Ht as [|t ts Ht Hts IH];
    intros [|l ls] [|x xs] Hx; simpl; auto.
  inversion Hx; subst. f_equal; auto.
  now apply log_prob_elem_succ.
Qed.

(** X14.  From one count to the next: when [lgamma] has the recurrence of
    the log-gamma function and [total_count] is positive,
    [log_prob(value + 1)] is [log_prob(value)] plus
    [log_sigmoid(logits) + log(total_count + value) - log(1 + value)],
    element by element, the ratio of successive probabilities of the
    Negative Binomial distribution. *)
Theorem log_prob_successor (lgamma : R -> R) (eps : R)
    tc op ol va self value s :
  (forall y, 0 < y -> lgamma (y + 1) = lgamma y + ln y) ->
  wf tc -> wf_opt op -> wf_opt ol -> wf value ->
  __init__ tc op ol va = Ok self ->
  infer_size (batch_shape self) (sizes value) = Some s ->
  Forall (fun x => support x = true) (storage value) ->
  Forall (fun t => 0 < t) (storage (total_count self)) ->
  exists r0 r1,
    log_prob lgamma eps self value = Ok r0 /\
    log_prob lgamma eps self (tmap (Rplus 1) value) = Ok r1 /\
    sizes r0 = s /\ sizes r1 = s /\
    storage r1
    = zip_with Rplus (storage r0)
        (zip_with3 (fun t l x => logsigmoid l + ln (t + x) - ln (1 + x))
           (at_shape s (total_count self))
           (at_shape s (logits eps self))
           (at_shape s value)).
Proof.
  intros Hrec Wt Wp Wl Wv Hinit Hs Hsup Hpos.
  pose proof (init_valid _ _ _ _ _ Wt Wp Wl Hinit) as V.
  destruct (log_prob_valid_instance lgamma eps self value s V Wv Hs Hsup)
    as (r0 & E0 & S0 & _ & D0).
  assert (Hsup1 : Forall (fun x => support x = true)
                    (storage (tmap (Rplus 1) value))).
  { unfold tmap. simpl. apply Forall_forall. intros y Hy.
    apply in_map_iff in Hy as (x & <- & Hx).
    rewrite Forall_forall in Hsup. apply support_true.
    destruct (proj1 (support_true x) (Hsup x Hx)) as [n ->].
    exists (S n). rewrite S_INR. lra. }
  destruct (log_prob_valid_instance lgamma eps self (tmap (Rplus 1) value) s
              V (wf_tmap _ _ Wv) Hs Hsup1)
    as (r1 & E1 & S1 & _ & D1).
  exists r0, r1. repeat split; auto.
  rewrite D1, D0, at_shape_tmap.
  apply log_prob_succ_list; auto.
  - now apply Forall_at_shape.
  - apply Forall_at_shape. eapply Forall_impl; [|exact Hsup].
    intros x Hx. apply support_true in Hx as [n ->]. apply pos_INR.
Qed.

Lemma log_prob_successor_witness :
  exists r0 r1,
    log_prob lgamma_steps float32_eps
      (mkNegativeBinomial (mkTensor [2%nat] [1; 2])
         (Logits (mkTensor [2%nat] [0; 0])) [2%nat] false)
      (mkTensor [] [3]) = Ok r0 /\
    log_prob lgamma_steps float32_eps
      (mkNegativeBinomial (mkTensor [2%nat] [1; 2])
         (Logits (mkTensor [2%nat] [0; 0])) [2%nat] false)
      (tmap (Rplus 1) (mkTensor [] [3])) = Ok r1 /\
    sizes r1 = [2%nat].
Proof.
  destruct (log_prob_successor lgamma_steps float32_eps
              (mkTensor [2%nat] [1; 2]) None (Some (scalar_tensor 0)) None
              (mkNegativeBinomial (mkTensor [2%nat] [1; 2])
                 (Logits (mkTensor [2%nat] [0; 0])) [2%nat] false)
              (mkTensor [] [3]) [2%nat] lgamma_steps_succ)
    as (r0 & r1 & E0 & E1 & _ & S1 & _).
  - reflexivity.
  - exact I.
  - reflexivity.
  - reflexivity.
  - reflexivity.
  - reflexivity.
  - repeat constructor. apply support_true. exists 3%nat. simpl. lra.
  - simpl. repeat constructor; lra.
  - exists r0, r1. auto.
Defined.

(** ** Values expanded beforehand, and rebuilding *)

Lemma tensor_eq {A : Type} (t u : tensor A) :
  sizes t = sizes u -> storage t = storage u -> t = u.
Proof. destruct t, u. simpl. now intros -> ->. Qed.

(** X16.  Expanding the value to the result shape beforehand changes
    nothing: [log_prob] of the expanded value is [log_prob] of the
    value. *)
Theorem log_prob_expanded_value (lgamma : R -> R) (eps : R)
    tc op ol va self value s :
  wf tc -> wf_opt op -> wf_opt ol -> wf value ->
  __init__ tc op ol va = Ok self ->
  infer_size (batch_shape self) (sizes value) = Some s ->
  Forall (fun x => support x = true) (storage value) ->
  exists r,
    log_prob lgamma eps self value = Ok r /\
    log_prob lgamma eps self (expand_to s value) = Ok r.
Proof.
  intros Wt Wp Wl Wv Hinit Hs Hsup.
  pose proof (init_valid _ _ _ _ _ Wt Wp Wl Hinit) as V.
  destruct (infer_size_expandable _ _ _ Hs) as [Eb Ev].
  assert (Fv : fits s value) by (split; auto).
  destruct (log_prob_valid_instance lgamma eps self value s V Wv Hs Hsup)
    as (r & Er & Sr & Wr & Dr).
  destruct (log_prob_valid_instance lgamma eps self (expand_to s value) s V)
    as (r' & Er' & Sr' & Wr' & Dr').
  - now apply wf_expand_to.
  - simpl. rewrite infer_size_comm. now apply infer_size_absorb.
  - now apply Forall_at_shape.
  - exists r. split; [exact Er|]. rewrite Er'. f_equal.
    apply tensor_eq; [congruence|].
    rewrite Dr', Dr. f_equal.
    apply at_shape_compose; auto. apply expandable_refl.
Qed.

Lemma log_prob_expanded_value_witness :
  exists r,
    log_prob (fun _ => 0) float32_eps
      (mkNegativeBinomial (mkTensor [2%nat] [1; 2])
         (Probs (mkTensor [2%nat] [/ 2; / 2])) [2%nat] false)
      (mkTensor [] [3]) = Ok r /\
    log_prob (fun _ => 0) float32_eps
      (mkNegativeBinomial (mkTensor [2%nat] [1; 2])
         (Probs (mkTensor [2%nat] [/ 2; / 2])) [2%nat] false)
      (mkTensor [2%nat] [3; 3]) = Ok r.
Proof.
  apply (log_prob_expanded_value (fun _ => 0) float32_eps
           (mkTensor [2%nat] [1; 2]) (Some (scalar_tensor (/ 2))) None None
           (mkNegativeBinomial (mkTensor [2%nat] [1; 2])
              (Probs (mkTensor [2%nat] [/ 2; / 2])) [2%nat] false)
           (mkTensor [] [3]) [2%nat]).
  - reflexivity.
  - reflexivity.
  - exact I.
  - reflexivity.
  - reflexivity.
  - reflexivity.
  - repeat constructor. apply support_true. exists 3%nat. simpl. lra.
Defined.

(** X17.  Rebuilding an instance from what it stores gives the same
    instance: constructing again from the stored [total_count] and the
    stored one of [probs], [logits], with the same validation flag,
    returns the instance itself. *)
Theorem init_rebuild tc op ol va self x :
  wf tc -> wf x -> given op ol x ->
  __init__ tc op ol va = Ok self ->
  __init__ (total_count self)
    (match op with Some _ => Some (_param self) | None => None end)
    (match ol with Some _ => Some (_param self) | None => None end)
    va
  = Ok self.
Proof.
  intros Wt Wx Hg H.
  destruct (init_ok_given _ _ _ _ _ _ H Hg) as (Hs & Ht & Hp & _).
  set (s := _batch_shape self) in *.
  destruct (infer_size_expandable _ _ _ Hs) as [Et Ex].
  destruct (init_given tc op ol va x s Hg Hs) as (pm & Epm & E).
  assert (W1 : wf (expand_to s tc)) by (apply wf_expand_to; split; auto).
  assert (W2 : wf (expand_to s x)) by (apply wf_expand_to; split; auto).
  assert (Hg' : given
                  (match op with Some _ => Some (_param self) | None => None end)
                  (match ol with Some _ => Some (_param self) | None => None end)
                  (expand_to s x)).
  { rewrite Hp. destruct Hg as [[-> ->]|[-> ->]]; [left | right]; auto. }
  destruct (init_given (total_count self) _ _ va (expand_to s x) s Hg')
    as (pm' & Epm' & E').
  { rewrite Ht. simpl. apply infer_size_refl. }
  rewrite E', <- H, E. f_equal.
  - rewrite Ht. apply (expand_to_self (expand_to s tc) W1).
  - pose proof (expand_to_self (expand_to s x) W2) as Q.
    change (sizes (expand_to s x)) with s in Q.
    rewrite Epm, Epm', Q.
    destruct Hg as [[-> ->]|[-> ->]]; reflexivity.
Qed.

Lemma init_rebuild_witness :
  __init__ (mkTensor [2; 3]%nat [1; 1; 1; 2; 2; 2]) None
    (Some (mkTensor [2; 3]%nat [0; 1; 2; 0; 1; 2])) None
  = Ok (mkNegativeBinomial (mkTensor [2; 3]%nat [1; 1; 1; 2; 2; 2])
          (Logits (mkTensor [2; 3]%nat [0; 1; 2; 0; 1; 2]))
          [2; 3]%nat false).
Proof.
  apply (init_rebuild
           (mkTensor [2; 1]%nat [1; 2]) None
           (Some (mkTensor [3%nat] [0; 1; 2])) None
           (mkNegativeBinomial (mkTensor [2; 3]%nat [1; 1; 1; 2; 2; 2])
              (Logits (mkTensor [2; 3]%nat [0; 1; 2; 0; 1; 2]))
              [2; 3]%nat false)
           (mkTensor [3%nat] [0; 1; 2])).
  - reflexivity.
  - reflexivity.
  - right. split; reflexivity.
  - reflexivity.
Defined.
